(** * Tutorial 8, "Spin and Sparse": a verification development

    The notebook [Tutorial 8 Spin and Sparse] is a linear sequence of cells
    over NumPy and SciPy.  This file embeds

    - the NumPy array layer the cells rely on ([np.diag], [np.kron],
      broadcasting [+], scalar products), on two-dimensional arrays given by
      their shape and their rows;
    - [forward_diff_mat] and the dense matrix [H = -20*forward_diff_mat(500)];
    - the compressed-sparse-row conversion, [todense] and the means;
    - the spin Hamiltonian cells, both as closed values and as transformers of
      the kernel's global namespace;
    - the top-level statements of the code cells.

    Number model.  [int64] entries are integers of [Z] with the 64-bit
    wrap-around written out in the arithmetic.  [float64] and [complex128]
    are modelled twice.

    - Module [Spin64] and the means run in IEEE binary64, on Rocq's
      primitive floats: round-to-nearest-even on every operation, signed
      zeros, infinities and NaN, and decimal literals read as the nearest
      binary64 value, as Python reads them.  Whatever is stated of the
      numbers the cells compute is stated of these.
    - Module [Spin] runs the same cells on exact rationals ([Qc]), without
      rounding.  It gives the real-number formula the binary64 result is
      compared with, and carries the properties in which rounding plays no
      part: which names a cell reads and binds, when a cell fails. *)

From Stdlib Require Import ZArith QArith Qabs Qcanon Lia Floats.
From stdpp Require Import base option list sorting gmap strings.

Set Default Proof Using "Type".

(** ** Scalars *)

(** The arithmetic a NumPy dtype provides to the array operations below. *)
Class Num (A : Type) := {
  zero : A;
  add : A → A → A;
  mul : A → A → A;
  conj : A → A;
  is_zero : A → bool
}.
Global Hint Mode Num ! : typeclass_instances.

(** Two's-complement reduction of an integer to 64 bits. *)
Definition wrap64 (x : Z) : Z :=
  ((x + 9223372036854775808) mod 18446744073709551616 - 9223372036854775808)%Z.

Definition int64_range (x : Z) : Prop :=
  (-9223372036854775808 ≤ x < 9223372036854775808)%Z.

#[export] Instance int64_num : Num Z := {|
  zero := 0%Z;
  add := λ a b, wrap64 (a + b);
  mul := λ a b, wrap64 (a * b);
  conj := λ a, a;
  is_zero := λ a, bool_decide (a = 0%Z)
|}.

(** Real arithmetic on rationals: [float64] without rounding, overflow or
    NaN. *)
#[export] Instance float64_num : Num Qc := {|
  zero := 0%Qc;
  add := Qcplus;
  mul := Qcmult;
  conj := λ a, a;
  is_zero := λ a, Qc_eq_bool a 0
|}.

(** Complex numbers with rational parts: [complex128] without rounding. *)
Record complex := Complex { re : Qc; im : Qc }.

Definition Cadd (a b : complex) : complex :=
  Complex (re a + re b) (im a + im b).
Definition Cmul (a b : complex) : complex :=
  Complex (re a * re b - im a * im b) (re a * im b + im a * re b).
Definition Cconj (a : complex) : complex :=
  Complex (re a) (- im a).
Definition Cdiv (a b : complex) : complex :=
  Complex ((re a * re b + im a * im b) / (re b * re b + im b * im b))
          ((im a * re b - re a * im b) / (re b * re b + im b * im b)).

#[export] Instance complex128_num : Num complex := {|
  zero := Complex 0 0;
  add := Cadd;
  mul := Cmul;
  conj := Cconj;
  is_zero := λ a, Qc_eq_bool (re a) 0 && Qc_eq_bool (im a) 0
|}.

#[export] Instance complex_eq_dec : EqDecision complex.
Proof. solve_decision. Defined.

(** True division, which NumPy gives the inexact dtypes. *)
Class Div (A : Type) := div : A → A → A.
#[export] Instance float64_div : Div Qc := Qcdiv.
#[export] Instance complex128_div : Div complex := Cdiv.

(** The casts NumPy inserts when the operands of an operation differ in
    dtype. *)
Definition float_of_int (n : Z) : Qc := Q2Qc (inject_Z n).
Definition complex_of_float (x : Qc) : complex := Complex x 0.

(** Type promotion: operands of dtypes [A] and [B] are both cast to [T]
    before the operation is carried out. *)
Class Promote (A B T : Type) := {
  upl : A → T;
  upr : B → T
}.
Global Hint Mode Promote ! ! - : typeclass_instances.

#[export] Instance promote_int_int : Promote Z Z Z :=
  {| upl := λ x, x; upr := λ x, x |}.
#[export] Instance promote_int_float : Promote Z Qc Qc :=
  {| upl := float_of_int; upr := λ x, x |}.
#[export] Instance promote_float_int : Promote Qc Z Qc :=
  {| upl := λ x, x; upr := float_of_int |}.
#[export] Instance promote_float_float : Promote Qc Qc Qc :=
  {| upl := λ x, x; upr := λ x, x |}.
#[export] Instance promote_int_complex : Promote Z complex complex :=
  {| upl := λ x, complex_of_float (float_of_int x); upr := λ x, x |}.
#[export] Instance promote_complex_int : Promote complex Z complex :=
  {| upl := λ x, x; upr := λ x, complex_of_float (float_of_int x) |}.
#[export] Instance promote_float_complex : Promote Qc complex complex :=
  {| upl := complex_of_float; upr := λ x, x |}.
#[export] Instance promote_complex_float : Promote complex Qc complex :=
  {| upl := λ x, x; upr := complex_of_float |}.
#[export] Instance promote_complex_complex : Promote complex complex complex :=
  {| upl := λ x, x; upr := λ x, x |}.

(** ** Scalars in IEEE binary64

    Rocq's primitive [float] is binary64 with round-to-nearest-even, the
    arithmetic of Python's [float] and NumPy's [float64].  Decimal literals
    denote the nearest binary64 value. *)
Set Warnings "-inexact-float".

(** The cast of an [int64] to [float64]: the integer rounded to the nearest
    binary64 value, ties to even. *)
Definition b64_of_int (n : Z) : float :=
  SF2Prim (binary_normalize prec emax n 0 false).

#[export] Instance binary64_num : Num float := {|
  zero := 0%float;
  add := PrimFloat.add;
  mul := PrimFloat.mul;
  conj := λ a, a;
  is_zero := λ a, PrimFloat.eqb a 0
|}.

(** [complex128]: two binary64 numbers. *)
Record complex128 := C128 { c_re : float; c_im : float }.

(** The loops of NumPy's [add], [multiply] and [conjugate] on [complex128]. *)
Definition c128_add (a b : complex128) : complex128 :=
  C128 (c_re a + c_re b) (c_im a + c_im b).
Definition c128_mul (a b : complex128) : complex128 :=
  C128 (c_re a * c_re b - c_im a * c_im b)
       (c_re a * c_im b + c_im a * c_re b).
Definition c128_conj (a : complex128) : complex128 :=
  C128 (c_re a) (- c_im a).

(** NumPy's [true_divide] on [complex128], Smith's method: the divisor is
    scaled by its larger component.
<<
in2r_abs = fabs(in2r); in2i_abs = fabs(in2i);
if (in2r_abs >= in2i_abs) {
    if (in2r_abs == 0 && in2i_abs == 0) {
        out.real = in1r/in2r_abs; out.imag = in1i/in2r_abs; continue; }
    rat = in2i/in2r; scl = 1.0/(in2r + in2i*rat);
    out.real = (in1r + in1i*rat)*scl; out.imag = (in1i - in1r*rat)*scl; }
else {
    rat = in2r/in2i; scl = 1.0/(in2i + in2r*rat);
    out.real = (in1r*rat + in1i)*scl; out.imag = (in1i*rat - in1r)*scl; }
>> *)
Definition c128_div (a b : complex128) : complex128 :=
  let br := PrimFloat.abs (c_re b) in
  let bi := PrimFloat.abs (c_im b) in
  if (bi <=? br)%float then
    if (br =? 0)%float && (bi =? 0)%float
    then C128 (c_re a / br) (c_im a / br)
    else
      let rat := (c_im b / c_re b)%float in
      let scl := (1 / (c_re b + c_im b * rat))%float in
      C128 ((c_re a + c_im a * rat) * scl) ((c_im a - c_re a * rat) * scl)
  else
    let rat := (c_re b / c_im b)%float in
    let scl := (1 / (c_im b + c_re b * rat))%float in
    C128 ((c_re a * rat + c_im a) * scl) ((c_im a * rat - c_re a) * scl).

#[export] Instance complex128_b64_num : Num complex128 := {|
  zero := C128 0 0;
  add := c128_add;
  mul := c128_mul;
  conj := c128_conj;
  is_zero := λ a, PrimFloat.eqb (c_re a) 0 && PrimFloat.eqb (c_im a) 0
|}.

#[export] Instance binary64_div : Div float := PrimFloat.div.
#[export] Instance complex128_b64_div : Div complex128 := c128_div.

(** The cast of a [float64] to [complex128]: imaginary part [+0.0]. *)
Definition c128_of_b64 (x : float) : complex128 := C128 x 0.

#[export] Instance promote_int_b64 : Promote Z float float :=
  {| upl := b64_of_int; upr := λ x, x |}.
#[export] Instance promote_b64_int : Promote float Z float :=
  {| upl := λ x, x; upr := b64_of_int |}.
#[export] Instance promote_b64_b64 : Promote float float float :=
  {| upl := λ x, x; upr := λ x, x |}.
#[export] Instance promote_int_c128 : Promote Z complex128 complex128 :=
  {| upl := λ x, c128_of_b64 (b64_of_int x); upr := λ x, x |}.
#[export] Instance promote_c128_int : Promote complex128 Z complex128 :=
  {| upl := λ x, x; upr := λ x, c128_of_b64 (b64_of_int x) |}.
#[export] Instance promote_b64_c128 : Promote float complex128 complex128 :=
  {| upl := c128_of_b64; upr := λ x, x |}.
#[export] Instance promote_c128_b64 : Promote complex128 float complex128 :=
  {| upl := λ x, x; upr := c128_of_b64 |}.
#[export] Instance promote_c128_c128 : Promote complex128 complex128 complex128 :=
  {| upl := λ x, x; upr := λ x, x |}.

(** NumPy's [==] on scalars.  On [float64] it is the IEEE comparison: the
    two zeros are equal, and NaN is equal to nothing, itself included. *)
Class Equal (A : Type) := equal : A → A → bool.
#[export] Instance int64_equal : Equal Z := Z.eqb.
#[export] Instance binary64_equal : Equal float := PrimFloat.eqb.
#[export] Instance complex128_equal : Equal complex128 :=
  λ a b, PrimFloat.eqb (c_re a) (c_re b) && PrimFloat.eqb (c_im a) (c_im b).

(** Neither infinite nor NaN. *)
Definition c128_finite (a : complex128) : bool :=
  PrimFloat.is_finite (c_re a) && PrimFloat.is_finite (c_im a).

(** The real number a finite binary64 value stands for. *)
Definition b64_to_Q (x : float) : option Q :=
  match Prim2SF x with
  | S754_zero _ => Some 0%Q
  | S754_finite s m e =>
      Some ((if s then - inject_Z (Zpos m) else inject_Z (Zpos m)) * 2 ^ e)%Q
  | _ => None
  end.

(** [x] stands for the real number [q] up to the relative error [eps]:
    [|x - q| <= eps * |q|]. *)
Definition approximates (eps : Q) (x : float) (q : Q) : bool :=
  match b64_to_Q x with
  | Some y => Qle_bool (Qabs (y - q)) (eps * Qabs q)
  | None => false
  end.

(** ** Two-dimensional arrays *)

(** An array is its shape and its rows; the shape is kept apart from the rows
    because [(0, 0)], [(0, 3)] and [(3, 0)] are different shapes. *)
Record ndarray (A : Type) := NdArray {
  shape : nat * nat;
  rows : list (list A)
}.
Arguments NdArray {A} _ _.
Arguments shape {A} _.
Arguments rows {A} _.

#[export] Instance ndarray_eq_dec `{EqDecision A} : EqDecision (ndarray A).
Proof. solve_decision. Defined.

Definition nrows {A} (a : ndarray A) : nat := (shape a).1.
Definition ncols {A} (a : ndarray A) : nat := (shape a).2.

(** The rows agree with the shape. *)
Definition wf {A} (a : ndarray A) : Prop :=
  length (rows a) = nrows a ∧ Forall (λ r, length r = ncols a) (rows a).

(** [a[i, j]]; [None] is Python's [IndexError]. *)
Definition item {A} (a : ndarray A) (i j : nat) : option A :=
  rows a !! i ≫= λ r, r !! j.

(** Entry read used inside the array operations, where indices are in range. *)
Definition get `{Num A} (a : ndarray A) (i j : nat) : A :=
  default zero (item a i j).

(** The array of shape [(r, c)] whose entry at [(i, j)] is [f i j]. *)
Definition mk_array {A} (r c : nat) (f : nat → nat → A) : ndarray A :=
  NdArray (r, c) ((λ i, (λ j, f i j) <$> seq 0 c) <$> seq 0 r).

(** [np.array] on a literal list of rows. *)
Definition np_array {A} (l : list (list A)) : ndarray A :=
  NdArray (length l, length (default [] (head l))) l.

(** Python's [[x]*n]: a non-positive count gives the empty list. *)
Definition list_mul {A} (x : A) (n : Z) : list A := replicate (Z.to_nat n) x.

(** [np.diag(v, k)] on a one-dimensional [v]: the square array of side
    [len(v) + |k|] with [v] on the [k]-th diagonal and zeros elsewhere. *)
Definition np_diag `{Num A} (v : list A) (k : Z) : ndarray A :=
  let n := length v + Z.abs_nat k in
  mk_array n n (λ i j,
    if decide (Z.of_nat j - Z.of_nat i = k)%Z
    then default zero (v !! (i `min` j))
    else zero).

(** NumPy's broadcasting rule on one axis: equal lengths, or one of them 1. *)
Definition broadcast_dim (m n : nat) : option nat :=
  if decide (m = n) then Some m
  else if decide (m = 1) then Some n
  else if decide (n = 1) then Some m
  else None.

(** Entry read of an operand being broadcast: an axis of length 1 is read at
    index 0 whatever the index of the result. *)
Definition bget `{Num A} (a : ndarray A) (i j : nat) : A :=
  get a (if decide (nrows a = 1) then 0 else i)
        (if decide (ncols a = 1) then 0 else j).

(** [a + b] on arrays; [None] is the [ValueError] raised when the shapes do
    not broadcast. *)
Definition np_add `{Num A, Num B, Num T, !Promote A B T}
    (a : ndarray A) (b : ndarray B) : option (ndarray T) :=
  r ← broadcast_dim (nrows a) (nrows b);
  c ← broadcast_dim (ncols a) (ncols b);
  Some (mk_array r c (λ i j, add (upl (B:=B) (bget a i j)) (upr (A:=A) (bget b i j)))).

(** An elementwise operation (a unary ufunc, a cast, a product with a
    scalar): the shape is kept and every entry is mapped. *)
Definition amap {A B} (f : A → B) (a : ndarray A) : ndarray B :=
  NdArray (shape a) (map (map f) (rows a)).

(** [s * a], [a * s] and [a / s] for a scalar [s]. *)
Definition np_mul_s `{Num T, !Promote K A T} (s : K) (a : ndarray A) : ndarray T :=
  amap (λ x, mul (upl (B:=A) s) (upr (A:=K) x)) a.
Definition np_mul_r `{Num T, !Promote A K T} (a : ndarray A) (s : K) : ndarray T :=
  amap (λ x, mul (upl (B:=K) x) (upr (A:=A) s)) a.
Definition np_div_r `{Div T, !Promote A K T} (a : ndarray A) (s : K) : ndarray T :=
  amap (λ x, div (upl (B:=K) x) (upr (A:=A) s)) a.

(** [a.T] and [a.conj()]. *)
Definition transpose `{Num A} (a : ndarray A) : ndarray A :=
  mk_array (ncols a) (nrows a) (λ i j, get a j i).
Definition np_conj `{Num A} (a : ndarray A) : ndarray A := amap conj a.

(** [np.kron(a, b)] on two-dimensional arrays: the block array whose block
    at [(i, j)] is [a[i, j] * b]. *)
Definition np_kron `{Num A, Num B, Num T, !Promote A B T}
    (a : ndarray A) (b : ndarray B) : ndarray T :=
  mk_array (nrows a * nrows b) (ncols a * ncols b) (λ i j,
    mul (upl (B:=B) (get a (i / nrows b) (j / ncols b)))
        (upr (A:=A) (get b (i mod nrows b) (j mod ncols b)))).

(** A square array equal to its conjugate transpose, entry by entry. *)
Definition hermitian `{Num A} (a : ndarray A) : Prop :=
  nrows a = ncols a ∧
  ∀ i j, i < nrows a → j < nrows a → get a i j = conj (get a j i).

(** A table of complex entries equal to its conjugate transpose. *)
Definition herm (f : nat → nat → complex) : Prop :=
  ∀ i j, f i j = Cconj (f j i).

(** [np.array_equal(a, b)]: the shapes are the same and [a == b] holds at
    every position. *)
Definition np_array_equal `{Num A, Equal A} (a b : ndarray A) : bool :=
  bool_decide (shape a = shape b) &&
  forallb (λ i, forallb (λ j, equal (get a i j) (get b i j)) (seq 0 (ncols a)))
          (seq 0 (nrows a)).

(** [np.array_equal(a, a.conj().T)]. *)
Definition is_hermitian `{Num A, Equal A} (a : ndarray A) : bool :=
  np_array_equal a (np_conj (transpose a)).

(** ** The finite-difference matrix

<<
def forward_diff_mat(nodes):
    return np.diag([-2]*nodes,0) + np.diag([1]*(nodes-1),1) + np.diag([1]*(nodes-1),-1)
>>
    For [nodes <= 1] the off-diagonal lists are empty and NumPy gives them
    dtype [float64]; the entries are the same numbers. *)
Definition forward_diff_mat (nodes : Z) : option (ndarray Z) :=
  s ← np_add (np_diag (list_mul (-2)%Z nodes) 0)
             (np_diag (list_mul 1%Z (nodes - 1)) 1);
  np_add s (np_diag (list_mul 1%Z (nodes - 1)) (-1)).

(** The entry the tridiagonal second-difference matrix has at [(i, j)]. *)
Definition tridiag_entry (i j : nat) : Z :=
  if decide (i = j) then (-2)%Z
  else if decide (i = S j ∨ j = S i) then 1%Z
  else 0%Z.

(** ** Compressed sparse rows

    [sparse.csr_matrix(a)] on a dense array keeps the non-zero entries in
    row-major order: [data] holds them, [indices] their columns, and
    [indptr[i] .. indptr[i+1]] delimits the entries of row [i]. *)
Record csr (A : Type) := Csr {
  csr_shape : nat * nat;
  indptr : list nat;
  indices : list nat;
  data : list A
}.
Arguments Csr {A} _ _ _ _.
Arguments csr_shape {A} _.
Arguments indptr {A} _.
Arguments indices {A} _.
Arguments data {A} _.

(** The non-zero entries of a row, each with its column. *)
Definition row_nonzero `{Num A} (r : list A) : list (nat * A) :=
  List.filter (λ p, negb (is_zero p.2)) (imap pair r).

(** Running totals: [cumsum acc [n0; n1; ..] = [acc; acc+n0; acc+n0+n1; ..]]. *)
Fixpoint cumsum (acc : nat) (l : list nat) : list nat :=
  match l with
  | [] => [acc]
  | n :: l' => acc :: cumsum (acc + n) l'
  end.

Definition csr_matrix `{Num A} (a : ndarray A) : csr A :=
  let nz := row_nonzero <$> rows a in
  Csr (shape a)
      (cumsum 0 (length <$> nz))
      (concat (fmap fst <$> nz))
      (concat (fmap snd <$> nz)).

(** One step of the dense fill, [B[i, indices[jj]] += data[jj]]. *)
Definition csr_accumulate `{Num A} (s : csr A) (row : list A) (jj : nat) : list A :=
  match indices s !! jj, data s !! jj with
  | Some j, Some x => <[j := add (default zero (row !! j)) x]> row
  | _, _ => row
  end.

(** Row [i] of the dense array: zeros, then the stored entries
    [indptr[i] .. indptr[i+1]] added in. *)
Definition csr_row `{Num A} (s : csr A) (i : nat) : list A :=
  let lo := default 0 (indptr s !! i) in
  let hi := default 0 (indptr s !! S i) in
  foldl (csr_accumulate s) (replicate (csr_shape s).2 zero) (seq lo (hi - lo)).

(** [s.todense()]. *)
Definition todense `{Num A} (s : csr A) : ndarray A :=
  NdArray (csr_shape s) (csr_row s <$> seq 0 (csr_shape s).1).

(** What the round trip needs of an entry: the zero test recognises only
    zero, and adding the entry to zero gives it back. *)
Definition storable `{Num A} (x : A) : Prop :=
  (is_zero x = true → x = zero) ∧ add zero x = x.

(** The dense fill of one row, on the stored pairs themselves. *)
Definition accumulate_pair `{Num A} (row : list A) (p : nat * A) : list A :=
  <[p.1 := add (default zero (row !! p.1)) p.2]> row.

(** ** The sparse-matrix cells *)
Module SparseDemo.
(** [H = -20*forward_diff_mat(500)] *)
Definition H : option (ndarray Z) :=
  m ← forward_diff_mat 500; Some (np_mul_s (-20)%Z m).

(** [H_csr = sparse.csr_matrix(H)] *)
Definition H_csr : option (csr Z) := csr_matrix <$> H.

(** [H_normal = H_csr.todense()] *)
Definition H_normal : option (ndarray Z) := todense <$> H_csr.
End SparseDemo.

(** ** The spin Hamiltonian cells in exact arithmetic

    The cells on rationals: what they would compute without rounding.  The
    formula of this module is the real-number Hamiltonian the binary64 result
    of [Spin64] is compared with. *)
Module Spin.

(** *** Constants
<<
e = 1.6e-19 ; h = 6.625e-34 ; ge = 1.9987213544 ; gn = -2.26
mu_B = 5.7962605e-5 ; mu_n = 3.156739525e-8
B = np.array([1, 1, 0]) ; A = 117e6 ; I = np.diag([1]*2)
>> *)
Definition e : Qc := Q2Qc 1.6e-19.
Definition h : Qc := Q2Qc 6.625e-34.
Definition ge : Qc := Q2Qc 1.9987213544.
Definition gn : Qc := Q2Qc (-2.26).
Definition mu_B : Qc := Q2Qc 5.7962605e-5.
Definition mu_n : Qc := Q2Qc 3.156739525e-8.
Definition B : list Z := [1; 1; 0]%Z.
Definition A : Qc := Q2Qc 117e6.
Definition I : ndarray Z := np_diag (list_mul 1%Z 2) 0.

(** *** Spin matrices
<<
X = 0.5*np.array([[0,1],[1,0]])
Y = 0.5*np.array([[0, -1j],[1j, 0]])
Z = 0.5*np.array([[1, 0], [0, -1]])
>> *)
Definition X : ndarray Qc :=
  np_mul_s (Q2Qc 0.5) (np_array [[0; 1]; [1; 0]]%Z).
Definition Y : ndarray complex :=
  np_mul_s (Q2Qc 0.5)
    (np_array [[Complex 0 0; Complex 0 (-1)]; [Complex 0 1; Complex 0 0]]).
Definition Z : ndarray Qc :=
  np_mul_s (Q2Qc 0.5) (np_array [[1; 0]; [0; -1]]%Z).

(** *** The assignments of the Hamiltonian cells

    Each right-hand side is a function of the globals it reads. *)

(** [H_zn = gn*mu_n*(B[0]*np.kron(X, I)+B[1]*np.kron(Y, I)+ B[2]*np.kron(Z, I))] *)
Definition H_zn_rhs (gn mu_n : Qc) (B : list BinNums.Z) (I : ndarray BinNums.Z)
    (X : ndarray Qc) (Y : ndarray complex) (Z : ndarray Qc)
    : option (ndarray complex) :=
  b0 ← B !! 0; b1 ← B !! 1; b2 ← B !! 2;
  s ← np_add (np_mul_s b0 (np_kron X I)) (np_mul_s b1 (np_kron Y I));
  s ← np_add s (np_mul_s b2 (np_kron Z I));
  Some (np_mul_s (gn * mu_n)%Qc s).

(** [H_ze = ge*mu_B*(B[0]*np.kron(I, X)+B[1]*np.kron(I, Y)+ B[2]*np.kron(I, Z))] *)
Definition H_ze_rhs (ge mu_B : Qc) (B : list BinNums.Z) (I : ndarray BinNums.Z)
    (X : ndarray Qc) (Y : ndarray complex) (Z : ndarray Qc)
    : option (ndarray complex) :=
  b0 ← B !! 0; b1 ← B !! 1; b2 ← B !! 2;
  s ← np_add (np_mul_s b0 (np_kron I X)) (np_mul_s b1 (np_kron I Y));
  s ← np_add s (np_mul_s b2 (np_kron I Z));
  Some (np_mul_s (ge * mu_B)%Qc s).

(** [H_z = (H_zn + H_ze)*e/h] *)
Definition H_z_rhs (H_zn H_ze : ndarray complex) (e h : Qc)
    : option (ndarray complex) :=
  s ← np_add H_zn H_ze;
  Some (np_div_r (np_mul_r s e) h).

(** [H_hf = A*(np.kron(X, X) + np.kron(Y, Y) + np.kron(Z, Z))] *)
Definition H_hf_rhs (A : Qc)
    (X : ndarray Qc) (Y : ndarray complex) (Z : ndarray Qc)
    : option (ndarray complex) :=
  s ← np_add (np_kron X X) (np_kron Y Y);
  s ← np_add s (np_kron Z Z);
  Some (np_mul_s A s).

(** [H = H_z + H_hf] *)
Definition H_rhs (H_z H_hf : ndarray complex) : option (ndarray complex) :=
  np_add H_z H_hf.

(** *** The globals after the cells have run *)
Definition H_zn : option (ndarray complex) := H_zn_rhs gn mu_n B I X Y Z.
Definition H_ze : option (ndarray complex) := H_ze_rhs ge mu_B B I X Y Z.
Definition H_z : option (ndarray complex) :=
  zn ← H_zn; ze ← H_ze; H_z_rhs zn ze e h.
Definition H_hf : option (ndarray complex) := H_hf_rhs A X Y Z.
Definition H : option (ndarray complex) :=
  z ← H_z; hf ← H_hf; H_rhs z hf.

(** *** The Hamiltonian as the formula reads

    [H = (g_n mu_n B.I + g_e mu_e B.S) e/h + A I.S], entry by entry, with
    the spin operators one half times the Pauli matrices, the identity as
    Kronecker's delta and the tensor product by its index formula. *)
Definition real (x : Qc) : complex := complex_of_float x.
Definition delta (i j : nat) : complex :=
  if decide (i = j) then Complex 1 0 else Complex 0 0.
Definition sigma_x (i j : nat) : complex :=
  if decide (i = j) then Complex 0 0 else Complex 1 0.
Definition sigma_y (i j : nat) : complex :=
  if decide (i = j) then Complex 0 0
  else if decide (i < j) then Complex 0 (-1) else Complex 0 1.
Definition sigma_z (i j : nat) : complex :=
  if decide (i = j) then (if decide (i = 0) then Complex 1 0 else Complex (-1) 0)
  else Complex 0 0.
Definition half (s : nat → nat → complex) (i j : nat) : complex :=
  Cmul (real (Q2Qc 0.5)) (s i j).
Definition tensor (a b : nat → nat → complex) (i j : nat) : complex :=
  Cmul (a (i / 2) (j / 2)) (b (i mod 2) (j mod 2)).

(** [B.op = B_x op_x + B_y op_y + B_z op_z], where [op] places a spin
    matrix in the two-spin space. *)
Definition field_dot (B : list BinNums.Z)
    (op : (nat → nat → complex) → nat → nat → complex) (i j : nat) : complex :=
  let b k := real (float_of_int (default 0%Z (B !! k))) in
  Cadd (Cadd (Cmul (b 0) (op (half sigma_x) i j))
             (Cmul (b 1) (op (half sigma_y) i j)))
       (Cmul (b 2) (op (half sigma_z) i j)).

(** Nuclear Zeeman term, [g_n mu_n B.I], with [I_k] acting as [I_k (x) 1]. *)
Definition zeeman_n (gn mu_n : Qc) (B : list BinNums.Z) (i j : nat) : complex :=
  Cmul (real (gn * mu_n)) (field_dot B (λ s, tensor s delta) i j).

(** Electron Zeeman term, [g_e mu_e B.S], with [S_k] acting as [1 (x) S_k]. *)
Definition zeeman_e (ge mu_B : Qc) (B : list BinNums.Z) (i j : nat) : complex :=
  Cmul (real (ge * mu_B)) (field_dot B (λ s, tensor delta s) i j).

(** Hyperfine term, [A I.S]. *)
Definition hyperfine (A : Qc) (i j : nat) : complex :=
  Cmul (real A)
    (Cadd (Cadd (tensor (half sigma_x) (half sigma_x) i j)
                (tensor (half sigma_y) (half sigma_y) i j))
          (tensor (half sigma_z) (half sigma_z) i j)).

(** The Zeeman terms are in eV and are converted to Hz by the factor
    [e/h]; the hyperfine term is in Hz already. *)
Definition H_formula (gn mu_n ge mu_B A e h : Qc) (B : list BinNums.Z)
    (i j : nat) : complex :=
  Cadd (Cmul (Cadd (zeeman_n gn mu_n B i j) (zeeman_e ge mu_B B i j))
             (real (e / h)))
       (hyperfine A i j).

(** The formula at the notebook's constants. *)
Definition H_spec : nat → nat → complex :=
  H_formula gn mu_n ge mu_B A e h B.

(** The value the Hamiltonian cells leave in [H], as a function of what
    the constants cell binds. *)
Definition H_from_constants (gn mu_n ge mu_B A e h : Qc) (B : list BinNums.Z)
    : option (ndarray complex) :=
  zn ← H_zn_rhs gn mu_n B I X Y Z;
  ze ← H_ze_rhs ge mu_B B I X Y Z;
  z ← H_z_rhs zn ze e h;
  hf ← H_hf_rhs A X Y Z;
  H_rhs z hf.

(** *** The kernel's namespace

    The cells are modelled by what they do to the global names.  The cells
    that only print or plot ([print(B)], [matshow_cbar(np.real(H_zn))], ...)
    bind nothing and are left out of the run. *)
Inductive value :=
| VInt (n : BinNums.Z)
| VFloat (x : Qc)
| VIntVec (v : list BinNums.Z)
| VFloatVec (v : list Qc)
| VIntArr (a : ndarray BinNums.Z)
| VFloatArr (a : ndarray Qc)
| VComplexArr (a : ndarray complex).

Abbreviation namespace := (gmap string value).

(** Running a cell either fails with an exception or gives the namespace
    it leaves behind. *)
Definition cell : Type := namespace → option namespace.

(** Reads of globals; an unbound name is a [NameError]. *)
Definition load_float (ρ : namespace) (x : string) : option Qc :=
  match ρ !! x with Some (VFloat q) => Some q | _ => None end.
Definition load_int_vec (ρ : namespace) (x : string) : option (list BinNums.Z) :=
  match ρ !! x with Some (VIntVec v) => Some v | _ => None end.
Definition load_int_arr (ρ : namespace) (x : string) : option (ndarray BinNums.Z) :=
  match ρ !! x with Some (VIntArr a) => Some a | _ => None end.
Definition load_float_arr (ρ : namespace) (x : string) : option (ndarray Qc) :=
  match ρ !! x with Some (VFloatArr a) => Some a | _ => None end.
Definition load_complex_arr (ρ : namespace) (x : string) : option (ndarray complex) :=
  match ρ !! x with Some (VComplexArr a) => Some a | _ => None end.

Definition cell_constants : cell := λ ρ,
  let ρ := <["e" := VFloat e]> ρ in
  let ρ := <["h" := VFloat h]> ρ in
  let ρ := <["ge" := VFloat ge]> ρ in
  let ρ := <["gn" := VFloat gn]> ρ in
  let ρ := <["mu_B" := VFloat mu_B]> ρ in
  let ρ := <["mu_n" := VFloat mu_n]> ρ in
  let ρ := <["B" := VIntVec B]> ρ in
  let ρ := <["A" := VFloat A]> ρ in
  Some (<["I" := VIntArr I]> ρ).

Definition cell_spin_matrices : cell := λ ρ,
  let ρ := <["X" := VFloatArr X]> ρ in
  let ρ := <["Y" := VComplexArr Y]> ρ in
  Some (<["Z" := VFloatArr Z]> ρ).

Definition cell_H_zn : cell := λ ρ,
  gn ← load_float ρ "gn"; mu_n ← load_float ρ "mu_n";
  B ← load_int_vec ρ "B"; I ← load_int_arr ρ "I";
  X ← load_float_arr ρ "X"; Y ← load_complex_arr ρ "Y";
  Z ← load_float_arr ρ "Z";
  v ← H_zn_rhs gn mu_n B I X Y Z;
  Some (<["H_zn" := VComplexArr v]> ρ).

Definition cell_H : cell := λ ρ,
  ge ← load_float ρ "ge"; mu_B ← load_float ρ "mu_B";
  B ← load_int_vec ρ "B"; I ← load_int_arr ρ "I";
  X ← load_float_arr ρ "X"; Y ← load_complex_arr ρ "Y";
  Z ← load_float_arr ρ "Z";
  v ← H_ze_rhs ge mu_B B I X Y Z;
  let ρ := <["H_ze" := VComplexArr v]> ρ in
  H_zn ← load_complex_arr ρ "H_zn"; H_ze ← load_complex_arr ρ "H_ze";
  e ← load_float ρ "e"; h ← load_float ρ "h";
  v ← H_z_rhs H_zn H_ze e h;
  let ρ := <["H_z" := VComplexArr v]> ρ in
  A ← load_float ρ "A";
  X ← load_float_arr ρ "X"; Y ← load_complex_arr ρ "Y";
  Z ← load_float_arr ρ "Z";
  v ← H_hf_rhs A X Y Z;
  let ρ := <["H_hf" := VComplexArr v]> ρ in
  H_z ← load_complex_arr ρ "H_z"; H_hf ← load_complex_arr ρ "H_hf";
  v ← H_rhs H_z H_hf;
  Some (<["H" := VComplexArr v]> ρ).

Section diagonalisation.
(** [np.linalg.eigh] is LAPACK's; the cells only need that it is a
    function of its argument, failing or returning eigenvalues and a
    matrix of eigenvectors. *)
Variable eigh : ndarray complex → option (list Qc * ndarray complex).

(** The printing loop reads [vals[i]] and the column [vecs[:,i]], and
    leaves [i] bound. *)
Definition print_loop (vals : list Qc) (vecs : ndarray complex)
    (ρ : namespace) : option namespace :=
  foldl (λ r i, ρ ← r;
                if decide (i < ncols vecs)
                then Some (<["i" := VInt (Z.of_nat i)]> ρ) else None)
        (Some ρ) (seq 0 (length vals)).

(** [vals, vecs = np.linalg.eigh(H)], then the loop. *)
Definition cell_eigh : cell := λ ρ,
  H ← load_complex_arr ρ "H";
  '(vals, vecs) ← eigh H;
  let ρ := <["vals" := VFloatVec vals]> ρ in
  let ρ := <["vecs" := VComplexArr vecs]> ρ in
  print_loop vals vecs ρ.

Definition run_cells (cs : list cell) (ρ : namespace) : option namespace :=
  foldl (λ r c, r ≫= c) (Some ρ) cs.

(** The Hamiltonian cells in notebook order. *)
Definition spin_cells : list cell :=
  [cell_constants; cell_spin_matrices; cell_H_zn; cell_H; cell_eigh].

(** What a run of the Hamiltonian cells produces. *)
Definition outputs (ρ : namespace) : option value * option value * option value :=
  (ρ !! "H", ρ !! "vals", ρ !! "vecs").
End diagonalisation.
End Spin.

(** ** The spin Hamiltonian cells in binary64

    The cells of [Spin] once more, on the numbers the kernel holds. *)
Module Spin64.

(** *** Constants
<<
e = 1.6e-19 ; h = 6.625e-34 ; ge = 1.9987213544 ; gn = -2.26
mu_B = 5.7962605e-5 ; mu_n = 3.156739525e-8
B = np.array([1, 1, 0]) ; A = 117e6 ; I = np.diag([1]*2)
>> *)
Definition e : float := 1.6e-19.
Definition h : float := 6.625e-34.
Definition ge : float := 1.9987213544.
Definition gn : float := (- 2.26)%float.
Definition mu_B : float := 5.7962605e-5.
Definition mu_n : float := 3.156739525e-8.
Definition B : list Z := [1; 1; 0]%Z.
Definition A : float := 117e6.
Definition I : ndarray Z := np_diag (list_mul 1%Z 2) 0.

(** *** Spin matrices
<<
X = 0.5*np.array([[0,1],[1,0]])
Y = 0.5*np.array([[0, -1j],[1j, 0]])
Z = 0.5*np.array([[1, 0], [0, -1]])
>>
    Python reads [-1j] as the negation of [1j], the complex number
    [(-0.0, -1.0)]. *)
Definition X : ndarray float :=
  np_mul_s 0.5%float (np_array [[0; 1]; [1; 0]]%Z).
Definition Y : ndarray complex128 :=
  np_mul_s 0.5%float
    (np_array [[C128 0 0; C128 (- 0) (- 1)]; [C128 0 1; C128 0 0]]).
Definition Z : ndarray float :=
  np_mul_s 0.5%float (np_array [[1; 0]; [0; -1]]%Z).

(** *** The assignments of the Hamiltonian cells *)

(** [H_zn = gn*mu_n*(B[0]*np.kron(X, I)+B[1]*np.kron(Y, I)+ B[2]*np.kron(Z, I))] *)
Definition H_zn_rhs (gn mu_n : float) (B : list BinNums.Z) (I : ndarray BinNums.Z)
    (X : ndarray float) (Y : ndarray complex128) (Z : ndarray float)
    : option (ndarray complex128) :=
  b0 ← B !! 0; b1 ← B !! 1; b2 ← B !! 2;
  s ← np_add (np_mul_s b0 (np_kron X I)) (np_mul_s b1 (np_kron Y I));
  s ← np_add s (np_mul_s b2 (np_kron Z I));
  Some (np_mul_s (gn * mu_n)%float s).

(** [H_ze = ge*mu_B*(B[0]*np.kron(I, X)+B[1]*np.kron(I, Y)+ B[2]*np.kron(I, Z))] *)
Definition H_ze_rhs (ge mu_B : float) (B : list BinNums.Z) (I : ndarray BinNums.Z)
    (X : ndarray float) (Y : ndarray complex128) (Z : ndarray float)
    : option (ndarray complex128) :=
  b0 ← B !! 0; b1 ← B !! 1; b2 ← B !! 2;
  s ← np_add (np_mul_s b0 (np_kron I X)) (np_mul_s b1 (np_kron I Y));
  s ← np_add s (np_mul_s b2 (np_kron I Z));
  Some (np_mul_s (ge * mu_B)%float s).

(** [H_z = (H_zn + H_ze)*e/h]: the product with [e], then the quotient by
    [h]. *)
Definition H_z_rhs (H_zn H_ze : ndarray complex128) (e h : float)
    : option (ndarray complex128) :=
  s ← np_add H_zn H_ze;
  Some (np_div_r (np_mul_r s e) h).

(** [H_hf = A*(np.kron(X, X) + np.kron(Y, Y) + np.kron(Z, Z))] *)
Definition H_hf_rhs (A : float)
    (X : ndarray float) (Y : ndarray complex128) (Z : ndarray float)
    : option (ndarray complex128) :=
  s ← np_add (np_kron X X) (np_kron Y Y);
  s ← np_add s (np_kron Z Z);
  Some (np_mul_s A s).

(** [H = H_z + H_hf] *)
Definition H_rhs (H_z H_hf : ndarray complex128) : option (ndarray complex128) :=
  np_add H_z H_hf.

(** *** The globals after the cells have run *)
Definition H_zn : option (ndarray complex128) := H_zn_rhs gn mu_n B I X Y Z.
Definition H_ze : option (ndarray complex128) := H_ze_rhs ge mu_B B I X Y Z.
Definition H_z : option (ndarray complex128) :=
  zn ← H_zn; ze ← H_ze; H_z_rhs zn ze e h.
Definition H_hf : option (ndarray complex128) := H_hf_rhs A X Y Z.
Definition H : option (ndarray complex128) :=
  z ← H_z; hf ← H_hf; H_rhs z hf.

(** *** The construction as it is described

    The three terms entry by entry, in [complex128] arithmetic: the spin
    operators are one half times the Pauli matrices, the identity is
    Kronecker's delta and the Kronecker product is its index formula. *)
Definition real (x : float) : complex128 := c128_of_b64 x.
Definition delta (i j : nat) : complex128 :=
  if decide (i = j) then C128 1 0 else C128 0 0.
Definition sigma_x (i j : nat) : complex128 :=
  if decide (i = j) then C128 0 0 else C128 1 0.
Definition sigma_y (i j : nat) : complex128 :=
  if decide (i = j) then C128 0 0
  else if decide (i < j) then C128 0 (- 1) else C128 0 1.
Definition sigma_z (i j : nat) : complex128 :=
  if decide (i = j) then (if decide (i = 0) then C128 1 0 else C128 (- 1) 0)
  else C128 0 0.
Definition half (s : nat → nat → complex128) (i j : nat) : complex128 :=
  c128_mul (real 0.5) (s i j).
Definition kron (a b : nat → nat → complex128) (i j : nat) : complex128 :=
  c128_mul (a (i / 2) (j / 2)) (b (i mod 2) (j mod 2)).

(** [B[0]*op(X) + B[1]*op(Y) + B[2]*op(Z)], where [op] places a spin matrix
    in the two-spin space. *)
Definition field_dot (B : list BinNums.Z)
    (op : (nat → nat → complex128) → nat → nat → complex128) (i j : nat)
    : complex128 :=
  let b k := real (b64_of_int (default 0%Z (B !! k))) in
  c128_add (c128_add (c128_mul (b 0) (op (half sigma_x) i j))
                     (c128_mul (b 1) (op (half sigma_y) i j)))
           (c128_mul (b 2) (op (half sigma_z) i j)).

(** Nuclear Zeeman term, [gn*mu_n*(B[0]*kron(X,I) + B[1]*kron(Y,I) + B[2]*kron(Z,I))]. *)
Definition zeeman_n (gn mu_n : float) (B : list BinNums.Z) (i j : nat) : complex128 :=
  c128_mul (real (gn * mu_n)) (field_dot B (λ s, kron s delta) i j).

(** Electron Zeeman term, [ge*mu_B*(B[0]*kron(I,X) + B[1]*kron(I,Y) + B[2]*kron(I,Z))]. *)
Definition zeeman_e (ge mu_B : float) (B : list BinNums.Z) (i j : nat) : complex128 :=
  c128_mul (real (ge * mu_B)) (field_dot B (λ s, kron delta s) i j).

(** Hyperfine term, [A*(kron(X,X) + kron(Y,Y) + kron(Z,Z))]. *)
Definition hyperfine (A : float) (i j : nat) : complex128 :=
  c128_mul (real A)
    (c128_add (c128_add (kron (half sigma_x) (half sigma_x) i j)
                        (kron (half sigma_y) (half sigma_y) i j))
              (kron (half sigma_z) (half sigma_z) i j)).

(** The conversion from eV to Hz, [x*e/h]. *)
Definition to_Hz (e h : float) (x : complex128) : complex128 :=
  c128_div (c128_mul x (real e)) (real h).

(** The sum of the two Zeeman terms, converted to Hz, and of the hyperfine
    term. *)
Definition H_formula (gn mu_n ge mu_B A e h : float) (B : list BinNums.Z)
    (i j : nat) : complex128 :=
  c128_add (to_Hz e h (c128_add (zeeman_n gn mu_n B i j) (zeeman_e ge mu_B B i j)))
           (hyperfine A i j).

(** *** The kernel's namespace *)
Inductive value :=
| VInt (n : BinNums.Z)
| VFloat (x : float)
| VIntVec (v : list BinNums.Z)
| VFloatVec (v : list float)
| VIntArr (a : ndarray BinNums.Z)
| VFloatArr (a : ndarray float)
| VComplexArr (a : ndarray complex128).

Abbreviation namespace := (gmap string value).

(** Reads of globals; an unbound name is a [NameError]. *)
Definition load_float (ρ : namespace) (x : string) : option float :=
  match ρ !! x with Some (VFloat q) => Some q | _ => None end.
Definition load_int_vec (ρ : namespace) (x : string) : option (list BinNums.Z) :=
  match ρ !! x with Some (VIntVec v) => Some v | _ => None end.
Definition load_int_arr (ρ : namespace) (x : string) : option (ndarray BinNums.Z) :=
  match ρ !! x with Some (VIntArr a) => Some a | _ => None end.
Definition load_float_arr (ρ : namespace) (x : string) : option (ndarray float) :=
  match ρ !! x with Some (VFloatArr a) => Some a | _ => None end.
Definition load_complex_arr (ρ : namespace) (x : string)
    : option (ndarray complex128) :=
  match ρ !! x with Some (VComplexArr a) => Some a | _ => None end.

(** The cells that call only the array layer: a run fails with an exception
    or gives the namespace it leaves behind. *)
Definition assign_constants (ρ : namespace) : option namespace :=
  let ρ := <["e" := VFloat e]> ρ in
  let ρ := <["h" := VFloat h]> ρ in
  let ρ := <["ge" := VFloat ge]> ρ in
  let ρ := <["gn" := VFloat gn]> ρ in
  let ρ := <["mu_B" := VFloat mu_B]> ρ in
  let ρ := <["mu_n" := VFloat mu_n]> ρ in
  let ρ := <["B" := VIntVec B]> ρ in
  let ρ := <["A" := VFloat A]> ρ in
  Some (<["I" := VIntArr I]> ρ).

Definition assign_spin_matrices (ρ : namespace) : option namespace :=
  let ρ := <["X" := VFloatArr X]> ρ in
  let ρ := <["Y" := VComplexArr Y]> ρ in
  Some (<["Z" := VFloatArr Z]> ρ).

Definition assign_H_zn (ρ : namespace) : option namespace :=
  gn ← load_float ρ "gn"; mu_n ← load_float ρ "mu_n";
  B ← load_int_vec ρ "B"; I ← load_int_arr ρ "I";
  X ← load_float_arr ρ "X"; Y ← load_complex_arr ρ "Y";
  Z ← load_float_arr ρ "Z";
  v ← H_zn_rhs gn mu_n B I X Y Z;
  Some (<["H_zn" := VComplexArr v]> ρ).

Definition assign_H (ρ : namespace) : option namespace :=
  ge ← load_float ρ "ge"; mu_B ← load_float ρ "mu_B";
  B ← load_int_vec ρ "B"; I ← load_int_arr ρ "I";
  X ← load_float_arr ρ "X"; Y ← load_complex_arr ρ "Y";
  Z ← load_float_arr ρ "Z";
  v ← H_ze_rhs ge mu_B B I X Y Z;
  let ρ := <["H_ze" := VComplexArr v]> ρ in
  H_zn ← load_complex_arr ρ "H_zn"; H_ze ← load_complex_arr ρ "H_ze";
  e ← load_float ρ "e"; h ← load_float ρ "h";
  v ← H_z_rhs H_zn H_ze e h;
  let ρ := <["H_z" := VComplexArr v]> ρ in
  A ← load_float ρ "A";
  X ← load_float_arr ρ "X"; Y ← load_complex_arr ρ "Y";
  Z ← load_float_arr ρ "Z";
  v ← H_hf_rhs A X Y Z;
  let ρ := <["H_hf" := VComplexArr v]> ρ in
  H_z ← load_complex_arr ρ "H_z"; H_hf ← load_complex_arr ρ "H_hf";
  v ← H_rhs H_z H_hf;
  Some (<["H" := VComplexArr v]> ρ).

(** The printing loop reads [vals[i]] and the column [vecs[:,i]], and
    leaves [i] bound. *)
Definition print_loop (vals : list float) (vecs : ndarray complex128)
    (ρ : namespace) : option namespace :=
  foldl (λ r i, ρ ← r;
                if decide (i < ncols vecs)
                then Some (<["i" := VInt (Z.of_nat i)]> ρ) else None)
        (Some ρ) (seq 0 (length vals)).

(** A cell relates the namespace it is run in to the namespaces it may
    leave behind: none when it raises, one when it is a function of what it
    reads, possibly several when it calls code that is not. *)
Definition cell : Type := namespace → namespace → Prop.

Definition det (f : namespace → option namespace) : cell :=
  λ ρ ρ', f ρ = Some ρ'.

Definition cell_constants : cell := det assign_constants.
Definition cell_spin_matrices : cell := det assign_spin_matrices.
Definition cell_H_zn : cell := det assign_H_zn.
Definition cell_H : cell := det assign_H.

Section diagonalisation.
(** [np.linalg.eigh] is LAPACK's.  Nothing is built into the model about
    it: [eigh a (vals, vecs)] says that the call on [a] may return the
    eigenvalues [vals] and the matrix of eigenvectors [vecs]; a call that
    raises returns nothing. *)
Variable eigh : ndarray complex128 → list float * ndarray complex128 → Prop.

(** [vals, vecs = np.linalg.eigh(H)], then the loop. *)
Definition cell_eigh : cell := λ ρ ρ',
  ∃ H vals vecs,
    load_complex_arr ρ "H" = Some H ∧
    eigh H (vals, vecs) ∧
    print_loop vals vecs
      (<["vecs" := VComplexArr vecs]> (<["vals" := VFloatVec vals]> ρ)) = Some ρ'.

(** Cells run one after the other. *)
Fixpoint run_cells (cs : list cell) (ρ ρ' : namespace) : Prop :=
  match cs with
  | [] => ρ' = ρ
  | c :: cs => ∃ ρ1, c ρ ρ1 ∧ run_cells cs ρ1 ρ'
  end.

(** The Hamiltonian cells in notebook order. *)
Definition spin_cells : list cell :=
  [cell_constants; cell_spin_matrices; cell_H_zn; cell_H; cell_eigh].

(** What a run of the Hamiltonian cells produces. *)
Definition outputs (ρ : namespace) : option value * option value * option value :=
  (ρ !! "H", ρ !! "vals", ρ !! "vecs").
End diagonalisation.
End Spin64.

(** ** The code cells, statement by statement

    What each code cell does at top level: which names it imports, defines
    or assigns, and which calls it makes for their effect. *)
Module Notebook.
#[warnings="-register-all"] Inductive stmt :=
| Import (name : string)
| FunctionDef (name : string) (params : list string) (body : list stmt)
| Return
| Assign (targets : list string)
| Expr (callee : string)
| For (target : string) (body : list stmt).

(** The timing idiom, [start = ...; <work>; end = ...; print; print]. *)
Definition timed (work : list stmt) : list stmt :=
  [Assign ["start"]] ++ work ++ [Assign ["end"]; Expr "print"; Expr "print"].

Definition code_cells : list (list stmt) := [
  [Import "np"; Import "plt"; Import "time"; Import "sparse"];
  [FunctionDef "matshow_cbar" ["mat"]
     [Assign ["fig"]; Assign ["ax"]; Assign ["cax"]; Expr "fig.colorbar"]];
  [Assign ["e"]; Assign ["h"]; Assign ["ge"]; Assign ["gn"];
   Assign ["mu_B"]; Assign ["mu_n"]; Assign ["B"]; Assign ["A"]; Assign ["I"]];
  [Expr "print"; Expr "print"];
  [Assign ["X"]; Assign ["Y"]; Assign ["Z"]];
  [Expr "print"; Expr "print"; Expr "print"];
  [Assign ["H_zn"]; Expr "print"];
  [Expr "matshow_cbar"; Expr "matshow_cbar"];
  [Assign ["H_ze"]; Assign ["H_z"]; Assign ["H_hf"]; Assign ["H"]];
  [Assign ["vals"; "vecs"]; For "i" [Expr "print"]];
  [FunctionDef "forward_diff_mat" ["nodes"] [Return]];
  [Assign ["H"]; Expr "print"; Expr "print";
   Assign ["H_csc"]; Expr "print"; Expr "print";
   Assign ["H_csr"]; Expr "print"; Expr "print";
   Assign ["H_dok"]; Expr "print"; Expr "print";
   Assign ["H_lil"]; Expr "print"; Expr "print"];
  [Assign ["H_normal"]; Expr "print"];
  [Expr "H_csc.conj"];
  [Expr "print"; Expr "print"; Expr "print"; Expr "print"; Expr "print";
   Expr "print"; Expr "print"; Expr "print"; Expr "print"; Expr "print";
   Expr "print"];
  timed [For "i" [Assign ["a"]]];
  [Assign ["nodes"]; Assign ["H"]; Expr "print"]
    ++ timed [Assign ["H_csr"]] ++ [Expr "print"] ++ timed [Assign ["H_lil"]];
  [Assign ["Repeats"]];
  [Expr "print"] ++ timed [For "i" [Assign ["a"]]];
  [Expr "print"] ++ timed [For "i" [Assign ["a"]]];
  [Expr "print"] ++ timed [For "i" [Assign ["a"]]];
  [Assign ["H"]; Expr "print"; Expr "print"; Expr "print";
   Assign ["H_csr"]; Expr "print"; Expr "print";
   Assign ["H_lil"]; Expr "print"];
  []
].

(** The functions a statement defines, nested ones included. *)
Fixpoint defined_functions (s : stmt) : list string :=
  match s with
  | FunctionDef name _ body => name :: flat_map defined_functions body
  | For _ body => flat_map defined_functions body
  | _ => []
  end.

(** The names a statement binds by assignment at the level it stands. *)
Definition assigned (s : stmt) : list string :=
  match s with
  | Assign targets => targets
  | _ => []
  end.

(** The names a statement assigns, at any depth. *)
Fixpoint assigned_anywhere (s : stmt) : list string :=
  match s with
  | Assign targets => targets
  | FunctionDef _ _ body => flat_map assigned_anywhere body
  | For _ body => flat_map assigned_anywhere body
  | _ => []
  end.

(** The names assigned inside the body of a function. *)
Fixpoint assigned_in_body (s : stmt) : list string :=
  match s with
  | FunctionDef _ _ body => flat_map assigned_anywhere body
  | For _ body => flat_map assigned_in_body body
  | _ => []
  end.

(** The helper functions of the notebook. *)
Definition helper_functions : list string :=
  flat_map (flat_map defined_functions) code_cells.

(** The names the function bodies of the notebook assign. *)
Definition assigned_in_functions : list string :=
  flat_map (flat_map assigned_in_body) code_cells.

(** The globals bound by a plain assignment at the top level of a cell. *)
Definition top_level_assignments : list string :=
  flat_map (flat_map assigned) code_cells.
End Notebook.

(** ** Further NumPy and SciPy operations of the cells *)

(** [np.real(a)] and [np.imag(a)], the two arrays the notebook plots for
    [H_zn]. *)
Definition np_real (a : ndarray complex) : ndarray Qc := amap re a.
Definition np_imag (a : ndarray complex) : ndarray Qc := amap im a.

(** An [int64] array holds values of the 64-bit range only. *)
Definition int64_array (a : ndarray Z) : Prop :=
  Forall (Forall int64_range) (rows a).

(** The stored entries of row [i] of a CSR structure, each with its column:
    the slice [indptr[i] .. indptr[i+1]] of [indices] and [data]. *)
Definition csr_row_entries {A} (s : csr A) (i : nat) : list (nat * A) :=
  let lo := default 0 (indptr s !! i) in
  let hi := default 0 (indptr s !! S i) in
  zip (take (hi - lo) (drop lo (indices s))) (take (hi - lo) (drop lo (data s))).

(** SciPy's canonical CSR format: one row pointer per row and one past the
    end, running from 0 to the number of stored entries without decreasing;
    as many column indices as values; columns inside the shape and strictly
    increasing within a row; no zero stored. *)
Definition csr_canonical `{Num A} (s : csr A) : Prop :=
  length (indptr s) = S (csr_shape s).1 ∧
  indptr s !! 0 = Some 0 ∧
  indptr s !! (csr_shape s).1 = Some (length (data s)) ∧
  (∀ i lo hi, indptr s !! i = Some lo → indptr s !! S i = Some hi → lo ≤ hi) ∧
  length (indices s) = length (data s) ∧
  Forall (λ j, j < (csr_shape s).2) (indices s) ∧
  Forall (λ x, is_zero x = false) (data s) ∧
  ∀ i, StronglySorted lt (fst <$> csr_row_entries s i).

(** One entry of a sum row: SciPy keeps the sum only when it is not zero. *)
Definition emit `{Num A} (j : nat) (x : A) (l : list (nat * A)) : list (nat * A) :=
  if is_zero x then l else (j, x) :: l.

(** The sum of two rows of stored entries with increasing columns, as SciPy
    merges them: equal columns are added, a column stored on one side only
    is added to zero. *)
Fixpoint merge_add `{Num A} (a : list (nat * A)) : list (nat * A) → list (nat * A) :=
  fix go (b : list (nat * A)) : list (nat * A) :=
    match a, b with
    | [], [] => []
    | (ja, xa) :: a', [] => emit ja (add xa zero) (merge_add a' [])
    | [], (jb, xb) :: b' => emit jb (add zero xb) (go b')
    | (ja, xa) :: a', (jb, xb) :: b' =>
        if decide (ja = jb) then emit ja (add xa xb) (merge_add a' b')
        else if decide (ja < jb) then emit ja (add xa zero) (merge_add a' b)
        else emit jb (add zero xb) (go b')
    end.

(** The CSR arrays of a list of rows of stored entries. *)
Definition csr_of_rows {A} (sh : nat * nat) (nz : list (list (nat * A))) : csr A :=
  Csr sh (cumsum 0 (fmap (M:=list) length nz))
      (concat (fmap (M:=list) (fmap (M:=list) fst) nz))
      (concat (fmap (M:=list) (fmap (M:=list) snd) nz)).

(** [s + t] on CSR structures, row by row.  Sparse addition does not
    broadcast: [None] is the [ValueError] SciPy raises on different
    shapes. *)
Definition csr_add `{Num A} (s t : csr A) : option (csr A) :=
  if decide (csr_shape s = csr_shape t)
  then Some (csr_of_rows (csr_shape s)
               ((λ i, merge_add (csr_row_entries s i) (csr_row_entries t i))
                  <$> seq 0 (csr_shape s).1))
  else None.

(** The non-zero entries of a row whose first column is [k]. *)
Definition row_nonzero_from `{Num A} (k : nat) (r : list A) : list (nat * A) :=
  List.filter (λ p, negb (is_zero p.2)) (imap (λ i x, (k + i, x)) r).

(** The non-zero entries of column [j], each with its row. *)
Definition col_nonzero `{Num A} (a : ndarray A) (j : nat) : list (nat * A) :=
  List.filter (λ p, negb (is_zero p.2))
              (imap (λ i r, (i, default zero (r !! j))) (rows a)).

(** [sparse.csc_matrix(a)] on a dense array: the same three arrays as CSR,
    compressed by columns, [indices] holding rows. *)
Definition csc_matrix `{Num A} (a : ndarray A) : csr A :=
  csr_of_rows (shape a) (col_nonzero a <$> seq 0 (ncols a)).

(** The non-zero entries of a dense array with their positions, in row-major
    order: what SciPy's COO conversion hands to the other formats. *)
Definition coo_entries `{Num A} (a : ndarray A) : list ((nat * nat) * A) :=
  concat (imap (λ i r, (λ p : nat * A, ((i, p.1), p.2)) <$> row_nonzero r) (rows a)).

(** [sparse.dok_matrix(a)] on a dense array: a dictionary from positions to
    values, updated with the non-zero entries one after the other. *)
Record dok (A : Type) := Dok {
  dok_shape : nat * nat;
  dok_items : gmap (nat * nat) A
}.
Arguments Dok {A} _ _.
Arguments dok_shape {A} _.
Arguments dok_items {A} _.

Definition dok_matrix `{Num A} (a : ndarray A) : dok A :=
  Dok (shape a)
      (foldl (λ d kv, <[kv.1 := kv.2]> d) ∅ (coo_entries a)).

(** ** Means

    [np.mean] on a dense [int64] array and [.mean()] on its compressed
    sparse forms, in binary64. *)








(** The cell of the means.
<<
print(np.mean(H)) ; print(H_csc.mean()) ; print(H_csr.mean())
>> *)
Module SparseMeans.

End SparseMeans.

(** * Lemmas and theorems *)

(** ** Arrays *)

Section array_facts.
Context `{Num A}.

Lemma shape_mk_array r c (f : nat → nat → A) : shape (mk_array r c f) = (r, c).
Proof. done. Qed.

Lemma wf_mk_array r c (f : nat → nat → A) : wf (mk_array r c f).
Proof.
  split; simpl.
  - by rewrite length_fmap, length_seq.
  - apply Forall_fmap, Forall_forall. intros i _. simpl.
    by rewrite length_fmap, length_seq.
Qed.

Lemma item_mk_array r c (f : nat → nat → A) i j :
  i < r → j < c → item (mk_array r c f) i j = Some (f i j).
Proof.
  intros Hi Hj. unfold item, mk_array. simpl.
  rewrite list_lookup_fmap, lookup_seq_lt by done. simpl.
  by rewrite list_lookup_fmap, lookup_seq_lt.
Qed.

Lemma item_mk_array_None r c (f : nat → nat → A) i j :
  r ≤ i ∨ c ≤ j → item (mk_array r c f) i j = None.
Proof.
  intros Hij. unfold item, mk_array. simpl.
  rewrite list_lookup_fmap.
  destruct (decide (i < r)) as [Hi|Hi].
  - rewrite lookup_seq_lt by done. simpl.
    rewrite list_lookup_fmap, lookup_seq_ge by lia. done.
  - rewrite lookup_seq_ge by lia. done.
Qed.

Lemma get_mk_array r c (f : nat → nat → A) i j :
  i < r → j < c → get (mk_array r c f) i j = f i j.
Proof. intros. unfold get. by rewrite item_mk_array. Qed.

Lemma mk_array_ext r c (f g : nat → nat → A) :
  (∀ i j, i < r → j < c → f i j = g i j) → mk_array r c f = mk_array r c g.
Proof.
  intros Hfg. unfold mk_array. f_equal.
  apply list_eq. intros i. rewrite !list_lookup_fmap.
  destruct (decide (i < r)) as [Hi|Hi].
  - rewrite lookup_seq_lt by done. simpl. f_equal.
    apply list_eq. intros j. rewrite !list_lookup_fmap.
    destruct (decide (j < c)) as [Hj|Hj].
    + rewrite lookup_seq_lt by done. simpl. f_equal. by apply Hfg.
    + by rewrite lookup_seq_ge by lia.
  - by rewrite lookup_seq_ge by lia.
Qed.

(** A well-formed array is the table of its entries. *)
Lemma wf_mk_array_get (a : ndarray A) :
  wf a → a = mk_array (nrows a) (ncols a) (get a).
Proof.
  destruct a as [[r c] l]. unfold wf, nrows, ncols. simpl.
  intros [Hl Hr]. unfold mk_array. f_equal.
  apply list_eq. intros i. rewrite list_lookup_fmap.
  destruct (l !! i) as [row|] eqn:Hi.
  - assert (i < r) by (rewrite <- Hl; by eapply lookup_lt_Some).
    rewrite lookup_seq_lt by done. simpl. f_equal.
    assert (length row = c) as Hrow.
    { rewrite Forall_forall in Hr. apply Hr. by eapply list_elem_of_lookup_2. }
    apply list_eq. intros j. rewrite list_lookup_fmap.
    destruct (row !! j) as [x|] eqn:Hj.
    + assert (j < c) by (rewrite <- Hrow; by eapply lookup_lt_Some).
      rewrite lookup_seq_lt by done. simpl.
      unfold get, item. simpl. rewrite Hi. simpl. by rewrite Hj.
    + apply lookup_ge_None in Hj. by rewrite lookup_seq_ge by lia.
  - apply lookup_ge_None in Hi. by rewrite lookup_seq_ge by lia.
Qed.

Lemma bget_in_range (a : ndarray A) i j :
  i < nrows a → j < ncols a → bget a i j = get a i j.
Proof.
  intros Hi Hj. unfold bget.
  repeat case_decide; f_equal; lia.
Qed.

Lemma broadcast_dim_same n : broadcast_dim n n = Some n.
Proof. unfold broadcast_dim. by rewrite decide_True. Qed.

Lemma shape_np_diag (v : list A) (k : Z) :
  shape (np_diag v k) = (length v + Z.abs_nat k, length v + Z.abs_nat k).
Proof. done. Qed.

Lemma get_np_diag (v : list A) (k : Z) i j :
  i < length v + Z.abs_nat k → j < length v + Z.abs_nat k →
  get (np_diag v k) i j =
    if decide (Z.of_nat j - Z.of_nat i = k)%Z
    then default zero (v !! (i `min` j)) else zero.
Proof. intros. unfold np_diag. by rewrite get_mk_array. Qed.
End array_facts.

(** Adding arrays of one shape is entrywise. *)
Lemma np_add_same_shape `{Num A, Num B, Num T, !Promote A B T}
    (a : ndarray A) (b : ndarray B) r c :
  shape a = (r, c) → shape b = (r, c) →
  np_add a b =
    Some (mk_array r c (λ i j, add (upl (B:=B) (get a i j)) (upr (A:=A) (get b i j)))).
Proof.
  intros Ha Hb. unfold np_add, nrows, ncols. rewrite Ha, Hb. simpl.
  rewrite !broadcast_dim_same. simpl. f_equal.
  apply mk_array_ext. intros i j Hi Hj.
  rewrite !bget_in_range; unfold nrows, ncols; rewrite ?Ha, ?Hb; done.
Qed.

Lemma shape_amap {A B} (f : A → B) (a : ndarray A) : shape (amap f a) = shape a.
Proof. done. Qed.

Lemma amap_mk_array {A B} (f : A → B) r c (g : nat → nat → A) :
  amap f (mk_array r c g) = mk_array r c (λ i j, f (g i j)).
Proof.
  unfold amap, mk_array. simpl. f_equal.
  rewrite <- list_fmap_compose. apply list_fmap_ext. intros _ i _. simpl.
  by rewrite <- list_fmap_compose.
Qed.

Lemma item_amap {A B} (f : A → B) (a : ndarray A) i j :
  item (amap f a) i j = f <$> item a i j.
Proof.
  unfold item, amap. simpl. rewrite list_lookup_fmap.
  destruct (rows a !! i) as [r|]; simpl; [|done].
  by rewrite list_lookup_fmap.
Qed.

(** ** The finite-difference matrix *)

Lemma length_list_mul {A} (x : A) (n : Z) : length (list_mul x n) = Z.to_nat n.
Proof. apply length_replicate. Qed.

(** A diagonal array built from a constant list. *)
Lemma get_np_diag_const (x : Z) (m : Z) (k : Z) i j :
  i < Z.to_nat m + Z.abs_nat k → j < Z.to_nat m + Z.abs_nat k →
  get (np_diag (list_mul x m) k) i j =
    if decide (Z.of_nat j - Z.of_nat i = k)%Z then x else 0%Z.
Proof.
  intros Hi Hj. rewrite get_np_diag by (by rewrite length_list_mul).
  case_decide as Hk; [|done].
  unfold list_mul. rewrite lookup_replicate_2 by lia. done.
Qed.

(** For [nodes >= 1] the three diagonal arrays have one shape and their sum is
    the tridiagonal table. *)
Lemma forward_diff_mat_tridiag (nodes : Z) :
  (1 ≤ nodes)%Z →
  forward_diff_mat nodes =
    Some (mk_array (Z.to_nat nodes) (Z.to_nat nodes) tridiag_entry).
Proof.
  intros Hn. unfold forward_diff_mat.
  set (n := Z.to_nat nodes).
  assert (Z.to_nat (nodes - 1) + 1 = n) as Hoff by lia.
  rewrite (np_add_same_shape _ _ n n); cycle 1.
  { rewrite shape_np_diag, length_list_mul. simpl. by rewrite Nat.add_0_r. }
  { rewrite shape_np_diag, length_list_mul.
    change (Z.abs_nat 1) with 1. by rewrite Hoff. }
  simpl.
  rewrite (np_add_same_shape _ _ n n); cycle 1.
  { done. }
  { rewrite shape_np_diag, length_list_mul.
    change (Z.abs_nat (-1)) with 1. by rewrite Hoff. }
  f_equal. apply mk_array_ext. intros i j Hi Hj.
  rewrite get_mk_array by done.
  rewrite !get_np_diag_const
    by (simpl; change (Z.abs_nat 1) with 1; change (Z.abs_nat (-1)) with 1; lia).
  unfold tridiag_entry. simpl.
  repeat case_decide; try lia; reflexivity.
Qed.

Lemma tridiag_entry_sym i j : tridiag_entry i j = tridiag_entry j i.
Proof. unfold tridiag_entry. repeat case_decide; try done; lia. Qed.

Lemma get_amap `{Num A, Num B} (f : A → B) (a : ndarray A) i j :
  i < nrows a → j < ncols a → wf a → get (amap f a) i j = f (get a i j).
Proof.
  intros Hi Hj Hwf. rewrite (wf_mk_array_get a Hwf).
  rewrite amap_mk_array, !get_mk_array; done.
Qed.

(** A table with symmetric entries is its own transpose, and stays so under
    an entrywise map. *)
Lemma transpose_mk_array_sym `{Num A} n (f : nat → nat → A) :
  (∀ i j, f i j = f j i) → transpose (mk_array n n f) = mk_array n n f.
Proof.
  intros Hf. unfold transpose. simpl.
  apply mk_array_ext. intros i j Hi Hj.
  rewrite get_mk_array by done. apply Hf.
Qed.

(** C3: for every [nodes >= 1], [forward_diff_mat(nodes)] returns the
    [nodes]-by-[nodes] array whose entry at [(i, j)] is [-2] when [i = j],
    [1] when [|i - j| = 1] and [0] otherwise. *)
Theorem forward_diff_mat_spec (nodes : Z) :
  (1 ≤ nodes)%Z →
  ∃ m, forward_diff_mat nodes = Some m ∧
       shape m = (Z.to_nat nodes, Z.to_nat nodes) ∧
       wf m ∧
       ∀ i j, i < Z.to_nat nodes → j < Z.to_nat nodes →
         item m i j =
           Some (if decide (i = j) then (-2)%Z
                 else if decide (Z.abs (Z.of_nat i - Z.of_nat j) = 1)%Z then 1%Z
                 else 0%Z).
Proof.
  intros Hn. eexists. split; [by apply forward_diff_mat_tridiag|].
  split; [done|]. split; [apply wf_mk_array|].
  intros i j Hi Hj. rewrite item_mk_array by done. f_equal.
  unfold tridiag_entry. repeat case_decide; try done; lia.
Qed.

Lemma forward_diff_mat_spec_witness :
  (1 ≤ 3)%Z ∧
  ∃ m, forward_diff_mat 3 = Some m ∧
       shape m = (Z.to_nat 3, Z.to_nat 3) ∧
       wf m ∧
       ∀ i j, i < Z.to_nat 3 → j < Z.to_nat 3 →
         item m i j =
           Some (if decide (i = j) then (-2)%Z
                 else if decide (Z.abs (Z.of_nat i - Z.of_nat j) = 1)%Z then 1%Z
                 else 0%Z).
Proof. split; [lia|]. apply (forward_diff_mat_spec 3). lia. Defined.

(** The product of an integer with the tridiagonal table. *)
Lemma np_mul_s_tridiag (s : Z) n :
  np_mul_s s (mk_array n n tridiag_entry) =
    mk_array n n (λ i j, wrap64 (s * tridiag_entry i j)).
Proof. unfold np_mul_s. by rewrite amap_mk_array. Qed.

Lemma hermitian_mk_array_sym n (f : nat → nat → Z) :
  (∀ i j, f i j = f j i) → hermitian (mk_array n n f).
Proof.
  intros Hf. split; [done|]. unfold nrows. simpl. intros i j Hi Hj.
  rewrite !get_mk_array by done. apply Hf.
Qed.

(** C9: for every [nodes >= 1] the array [forward_diff_mat(nodes)] equals its
    transpose, and so does its multiple by [-20] that the sparse cells start
    from: both are Hermitian real arrays. *)
Theorem forward_diff_mat_symmetric (nodes : Z) :
  (1 ≤ nodes)%Z →
  ∃ m, forward_diff_mat nodes = Some m ∧
       transpose m = m ∧ hermitian m ∧
       transpose (np_mul_s (-20)%Z m) = np_mul_s (-20)%Z m ∧
       hermitian (np_mul_s (-20)%Z m).
Proof.
  intros Hn. eexists. split; [by apply forward_diff_mat_tridiag|].
  rewrite np_mul_s_tridiag.
  assert (∀ i j, wrap64 (-20 * tridiag_entry i j) = wrap64 (-20 * tridiag_entry j i))
    as Hs by (intros i j; by rewrite tridiag_entry_sym).
  repeat split.
  - apply transpose_mk_array_sym, tridiag_entry_sym.
  - by apply hermitian_mk_array_sym, tridiag_entry_sym.
  - by apply transpose_mk_array_sym.
  - by apply hermitian_mk_array_sym.
Qed.

Lemma forward_diff_mat_symmetric_witness :
  (1 ≤ 500)%Z ∧
  ∃ m, forward_diff_mat 500 = Some m ∧
       transpose m = m ∧ hermitian m ∧
       transpose (np_mul_s (-20)%Z m) = np_mul_s (-20)%Z m ∧
       hermitian (np_mul_s (-20)%Z m).
Proof. split; [lia|]. apply (forward_diff_mat_symmetric 500). lia. Defined.

(** [forward_diff_mat] on [nodes <= 0]: the main diagonal is empty, the
    off-diagonal arrays are 1-by-1, and broadcasting stretches their axes of
    length 1 to length 0. *)
Lemma forward_diff_mat_nonpositive (nodes : Z) :
  (nodes ≤ 0)%Z → forward_diff_mat nodes = Some (NdArray (0, 0) []).
Proof.
  intros Hn. unfold forward_diff_mat, list_mul.
  replace (Z.to_nat nodes) with 0 by lia.
  replace (Z.to_nat (nodes - 1)) with 0 by lia.
  reflexivity.
Qed.

(** C10, as stated, fails: the call at [nodes = 0] does not raise, it returns
    the empty array. *)
Lemma forward_diff_mat_zero_returns :
  forward_diff_mat 0 = Some (NdArray (0, 0) []) ∧
  is_Some (forward_diff_mat 0).
Proof. by rewrite forward_diff_mat_nonpositive. Qed.

(** C10, amended: at [nodes = 0] the three [np.diag] terms do differ in shape
    (a 0-by-0 main diagonal, 1-by-1 off-diagonals), but the shapes broadcast,
    an axis of length 1 stretching to length 0, and the call returns the
    empty 0-by-0 array instead of failing. *)
Theorem forward_diff_mat_zero_broadcasts :
  shape (np_diag (list_mul (-2)%Z 0) 0) = (0, 0) ∧
  shape (np_diag (list_mul 1%Z (0 - 1)) 1) = (1, 1) ∧
  shape (np_diag (list_mul 1%Z (0 - 1)) (-1)) = (1, 1) ∧
  broadcast_dim 0 1 = Some 0 ∧
  (s ← np_add (np_diag (list_mul (-2)%Z 0) 0)
              (np_diag (list_mul 1%Z (0 - 1)) 1);
   np_add s (np_diag (list_mul 1%Z (0 - 1)) (-1))) = Some (NdArray (0, 0) []) ∧
  forward_diff_mat 0 = Some (NdArray (0, 0) []).
Proof.
  do 5 (split; [reflexivity|]). by rewrite forward_diff_mat_nonpositive.
Qed.

(** ** Compressed sparse rows: the round trip *)

Section csr_facts.
Context `{Num A}.

Lemma row_nonzero_snoc (r : list A) (x : A) :
  row_nonzero (r ++ [x]) =
    row_nonzero r ++ (if is_zero x then [] else [(length r, x)]).
Proof.
  unfold row_nonzero. rewrite imap_app, List.filter_app. f_equal.
  simpl. rewrite Nat.add_0_r. by destruct (is_zero x).
Qed.

(** Filling [k] extra zero columns after a row restores the row and leaves
    the extra columns zero. *)
Lemma fill_row_nonzero (r : list A) :
  Forall storable r →
  ∀ k, foldl accumulate_pair (replicate (length r + k) zero) (row_nonzero r)
       = r ++ replicate k zero.
Proof.
  induction r as [|x r IH] using rev_ind; intros Hr k; [done|].
  apply Forall_app in Hr as [Hr Hx]. apply Forall_singleton in Hx as [Hz Hadd].
  rewrite row_nonzero_snoc, foldl_app, length_app. simpl.
  replace (length r + 1 + k) with (length r + S k) by lia.
  rewrite (IH Hr (S k)). simpl. rewrite <- app_assoc. simpl.
  destruct (is_zero x) eqn:Hzx; simpl.
  - by rewrite (Hz eq_refl).
  - unfold accumulate_pair. simpl.
    rewrite list_lookup_middle by done. simpl. rewrite Hadd.
    replace (length r) with (length r + 0) at 1 by lia.
    by rewrite insert_app_r.
Qed.

Lemma cumsum_head acc (l : list nat) : cumsum acc l !! 0 = Some acc.
Proof. by destruct l. Qed.

(** Where chunk [i] of a concatenation starts and ends. *)
Lemma cumsum_concat {X} (ls : list (list X)) acc i l :
  ls !! i = Some l →
  ∃ off, cumsum acc (length <$> ls) !! i = Some (acc + off) ∧
         cumsum acc (length <$> ls) !! S i = Some (acc + off + length l) ∧
         ∀ t, t < length l → concat ls !! (off + t) = l !! t.
Proof.
  revert acc i. induction ls as [|l0 ls IH]; intros acc i Hi; [done|].
  destruct i as [|i]; simpl in *.
  - injection Hi as ->. exists 0. rewrite !Nat.add_0_r.
    split; [done|]. split; [apply cumsum_head|].
    intros t Ht. simpl. by rewrite lookup_app_l.
  - destruct (IH (acc + length l0) i Hi) as (off & H1 & H2 & H3).
    exists (length l0 + off).
    rewrite !Nat.add_assoc. split; [done|]. split; [done|].
    intros t Ht. rewrite <- Nat.add_assoc, lookup_app_r by lia.
    rewrite <- (H3 t Ht). f_equal. lia.
Qed.

(** Reading the stored entries through [indices] and [data] is reading the
    pairs. *)
Lemma foldl_csr_accumulate (s : csr A) (chunk : list (nat * A)) :
  ∀ lo init,
    (∀ t p, chunk !! t = Some p →
            indices s !! (lo + t) = Some p.1 ∧ data s !! (lo + t) = Some p.2) →
    foldl (csr_accumulate s) init (seq lo (length chunk))
    = foldl accumulate_pair init chunk.
Proof.
  induction chunk as [|p chunk IH]; intros lo init Hs; [done|].
  simpl. destruct (Hs 0 p eq_refl) as [Hi Hd].
  rewrite Nat.add_0_r in Hi, Hd.
  unfold csr_accumulate at 2. rewrite Hi, Hd.
  apply IH. intros t q Ht.
  replace (S lo + t) with (lo + S t) by lia. by apply Hs.
Qed.

Lemma csr_row_csr_matrix (a : ndarray A) i r :
  rows a !! i = Some r → length r = ncols a → Forall storable r →
  csr_row (csr_matrix a) i = r.
Proof.
  intros Hi Hlen Hr. unfold csr_row.
  change (csr_shape (csr_matrix a)).2 with (ncols a). rewrite <- Hlen.
  set (nz := row_nonzero <$> rows a).
  assert (nz !! i = Some (row_nonzero r)) as Hnz
    by (unfold nz; by rewrite list_lookup_fmap, Hi).
  destruct (cumsum_concat (fmap (M:=list) fst <$> nz) 0 i (fst <$> row_nonzero r))
    as (off & Hlo & Hhi & Hidx); [by rewrite list_lookup_fmap, Hnz|].
  destruct (cumsum_concat (fmap (M:=list) snd <$> nz) 0 i (snd <$> row_nonzero r))
    as (off' & Hlo' & Hhi' & Hdat); [by rewrite list_lookup_fmap, Hnz|].
  assert (length <$> (fmap (M:=list) fst <$> nz) = length <$> nz) as Hl1.
  { rewrite <- list_fmap_compose. apply list_fmap_ext.
    intros _ l _. simpl. apply length_fmap. }
  assert (length <$> (fmap (M:=list) snd <$> nz) = length <$> nz) as Hl2.
  { rewrite <- list_fmap_compose. apply list_fmap_ext.
    intros _ l _. simpl. apply length_fmap. }
  rewrite Hl1 in Hlo, Hhi. rewrite Hl2 in Hlo'.
  assert (off' = off) as -> by (rewrite Hlo in Hlo'; simplify_eq; lia).
  rewrite length_fmap in Hhi, Hidx. rewrite length_fmap in Hdat.
  change (indptr (csr_matrix a)) with (cumsum 0 (length <$> nz)).
  rewrite Hlo, Hhi. simpl.
  replace (off + length (row_nonzero r) - off) with (length (row_nonzero r)) by lia.
  rewrite foldl_csr_accumulate; cycle 1.
  { intros t p Ht. pose proof (lookup_lt_Some _ _ _ Ht) as Hlt.
    change (indices (csr_matrix a)) with (concat (fmap (M:=list) fst <$> nz)).
    change (data (csr_matrix a)) with (concat (fmap (M:=list) snd <$> nz)).
    rewrite Hidx, Hdat by done.
    by rewrite !list_lookup_fmap, Ht. }
  replace (length r) with (length r + 0) at 1 by lia.
  rewrite fill_row_nonzero by done. simpl. by rewrite app_nil_r.
Qed.

(** Converting a dense array to CSR and back gives the array. *)
Lemma todense_csr_matrix (a : ndarray A) :
  wf a → Forall (Forall storable) (rows a) → todense (csr_matrix a) = a.
Proof.
  intros [Hrows Hcols] Hst. destruct a as [[nr nc] l].
  unfold nrows, ncols in *. simpl in *.
  unfold todense. simpl. f_equal.
  apply list_eq. intros i. rewrite list_lookup_fmap.
  destruct (l !! i) as [r|] eqn:Hi.
  - pose proof (lookup_lt_Some _ _ _ Hi) as Hlt.
    rewrite lookup_seq_lt by lia. simpl. f_equal.
    apply csr_row_csr_matrix; [done| |].
    + rewrite Forall_forall in Hcols. apply Hcols.
      by eapply list_elem_of_lookup_2.
    + rewrite Forall_forall in Hst. apply Hst.
      by eapply list_elem_of_lookup_2.
  - apply lookup_ge_None in Hi. by rewrite lookup_seq_ge by lia.
Qed.
End csr_facts.

(** *** The dense matrix of the sparse cells *)

Lemma wrap64_range (x : Z) : int64_range (wrap64 x).
Proof.
  unfold int64_range, wrap64.
  pose proof (Z.mod_pos_bound (x + 9223372036854775808) 18446744073709551616).
  lia.
Qed.

Lemma wrap64_small (x : Z) : int64_range x → wrap64 x = x.
Proof.
  unfold int64_range, wrap64. intros Hx.
  rewrite Z.mod_small by lia. lia.
Qed.

(** Every [int64] value can be stored and read back. *)
Lemma storable_int64 (x : Z) : int64_range x → storable x.
Proof.
  intros Hx. split.
  - simpl. intros Hz. by apply bool_decide_eq_true in Hz.
  - simpl. by rewrite wrap64_small.
Qed.

Lemma Forall_rows_mk_array {A} (P : A → Prop) r c (f : nat → nat → A) :
  (∀ i j, i < r → j < c → P (f i j)) →
  Forall (Forall P) (rows (mk_array r c f)).
Proof.
  intros Hf. simpl. apply Forall_fmap, Forall_forall. intros i Hi. simpl.
  apply Forall_fmap, Forall_forall. intros j Hj. simpl.
  apply elem_of_seq in Hi, Hj. apply Hf; lia.
Qed.

(** [H = -20*forward_diff_mat(500)] as a table. *)
Lemma SparseDemo_H_table :
  SparseDemo.H =
    Some (mk_array (Z.to_nat 500) (Z.to_nat 500)
            (λ i j, wrap64 (-20 * tridiag_entry i j))).
Proof.
  unfold SparseDemo.H. rewrite (forward_diff_mat_tridiag 500) by lia.
  cbn [mbind option_bind]. by rewrite np_mul_s_tridiag.
Qed.

(** C5: the sparse format conversion round-trips.  With
    [H = -20*forward_diff_mat(500)], the array [H_csr.todense()] for
    [H_csr = sparse.csr_matrix(H)] is [H], entry by entry. *)
Theorem csr_todense_round_trip :
  ∃ m n, SparseDemo.H = Some m ∧
         SparseDemo.H_csr = Some (csr_matrix m) ∧
         SparseDemo.H_normal = Some n ∧
         shape m = (500, 500) ∧ shape n = (500, 500) ∧
         (∀ i j, item n i j = item m i j) ∧
         n = m.
Proof.
  pose proof SparseDemo_H_table as HH.
  set (m := mk_array (Z.to_nat 500) (Z.to_nat 500)
              (λ i j, wrap64 (-20 * tridiag_entry i j))) in HH.
  assert (todense (csr_matrix m) = m) as Hrt.
  { apply todense_csr_matrix; [apply wf_mk_array|].
    apply Forall_rows_mk_array. intros i j _ _.
    apply storable_int64, wrap64_range. }
  exists m, m. unfold SparseDemo.H_normal, SparseDemo.H_csr.
  rewrite HH. cbn [fmap option_fmap option_map]. rewrite Hrt.
  repeat split; reflexivity.
Qed.

(** ** The means of the dense and of the compressed sparse forms *)





(** ** Complex arithmetic *)


Lemma complex_ext (a b : complex) : re a = re b → im a = im b → a = b.
Proof. destruct a, b. simpl. by intros -> ->. Qed.

(** Equalities of complex polynomial expressions, by components. *)
Ltac complex_ring :=
  apply complex_ext;
  cbn [re im Cadd Cmul Cconj complex_of_float Spin.real];
  ring.

Section complex_facts.
Local Open Scope Qc_scope.


Lemma Cconj_add (a b : complex) : Cconj (Cadd a b) = Cadd (Cconj a) (Cconj b).
Proof. complex_ring. Qed.

Lemma Cconj_mul (a b : complex) : Cconj (Cmul a b) = Cmul (Cconj a) (Cconj b).
Proof. complex_ring. Qed.

Lemma Cconj_real (x : Qc) : Cconj (complex_of_float x) = complex_of_float x.
Proof. complex_ring. Qed.

Lemma Cconj_involutive (a : complex) : Cconj (Cconj a) = a.
Proof. complex_ring. Qed.

Lemma complex_of_float_mul (x y : Qc) :
complex_of_float (x * y) = Cmul (complex_of_float x) (complex_of_float y).
Proof. complex_ring. Qed.

(** Dividing by a real number is multiplying by its inverse, also at zero,
  where the model's division gives zero. *)
Lemma Cdiv_real (a : complex) (x : Qc) :
Cdiv a (complex_of_float x) = Cmul a (complex_of_float (/ x)).
Proof.
destruct (decide (x = 0)) as [->|Hx].
- apply complex_ext; cbn [re im Cdiv Cmul complex_of_float].
  + replace (0 * 0 + 0 * 0) with 0 by ring. unfold Qcdiv.
    replace (/ 0) with 0 by (by apply Qc_is_canon). ring.
  + replace (0 * 0 + 0 * 0) with 0 by ring. unfold Qcdiv.
    replace (/ 0) with 0 by (by apply Qc_is_canon). ring.
- apply complex_ext; cbn [re im Cdiv Cmul complex_of_float]; field; done.
Qed.
End complex_facts.

(** ** Operations on tables *)

Lemma np_add_mk_array `{Num A, Num B, Num T, !Promote A B T}
    r c (f : nat → nat → A) (g : nat → nat → B) :
  np_add (mk_array r c f) (mk_array r c g) =
    Some (mk_array r c (λ i j, add (upl (B:=B) (f i j)) (upr (A:=A) (g i j)))).
Proof.
  rewrite (np_add_same_shape _ _ r c) by done. f_equal.
  apply mk_array_ext. intros i j Hi Hj. by rewrite !get_mk_array.
Qed.

Lemma np_mul_s_mk_array `{Num T, !Promote K A T} (s : K) r c (f : nat → nat → A) :
  np_mul_s s (mk_array r c f) =
    mk_array r c (λ i j, mul (upl (B:=A) s) (upr (A:=K) (f i j))).
Proof. unfold np_mul_s. by rewrite amap_mk_array. Qed.

Lemma np_mul_r_mk_array `{Num T, !Promote A K T} (s : K) r c (f : nat → nat → A) :
  np_mul_r (mk_array r c f) s =
    mk_array r c (λ i j, mul (upl (B:=K) (f i j)) (upr (A:=A) s)).
Proof. unfold np_mul_r. by rewrite amap_mk_array. Qed.

Lemma np_div_r_mk_array `{Div T, !Promote A K T} (s : K) r c (f : nat → nat → A) :
  np_div_r (mk_array r c f) s =
    mk_array r c (λ i j, div (upl (B:=K) (f i j)) (upr (A:=A) s)).
Proof. unfold np_div_r. by rewrite amap_mk_array. Qed.

Lemma np_kron_2x2 `{Num A, Num B, Num T, !Promote A B T}
    (a : ndarray A) (b : ndarray B) :
  shape a = (2, 2) → shape b = (2, 2) →
  np_kron a b =
    mk_array 4 4 (λ i j,
      mul (upl (B:=B) (get a (i / 2) (j / 2)))
          (upr (A:=A) (get b (i mod 2) (j mod 2)))).
Proof. intros Ha Hb. unfold np_kron, nrows, ncols. by rewrite Ha, Hb. Qed.

(** ** The spin matrices, entry by entry *)

Ltac by_evaluation := apply (bool_decide_unpack _); vm_compute; exact Logic.I.

Ltac two_by_two i j :=
  destruct i as [|[|i]]; [| |lia]; (destruct j as [|[|j]]; [| |lia]).

Lemma get_X (i j : nat) :
  i < 2 → j < 2 →
  complex_of_float (get Spin.X i j) = Spin.half Spin.sigma_x i j.
Proof. intros Hi Hj. two_by_two i j; by_evaluation. Qed.

Lemma get_Y (i j : nat) :
  i < 2 → j < 2 → get Spin.Y i j = Spin.half Spin.sigma_y i j.
Proof. intros Hi Hj. two_by_two i j; by_evaluation. Qed.

Lemma get_Z (i j : nat) :
  i < 2 → j < 2 →
  complex_of_float (get Spin.Z i j) = Spin.half Spin.sigma_z i j.
Proof. intros Hi Hj. two_by_two i j; by_evaluation. Qed.

Lemma get_I (i j : nat) :
  i < 2 → j < 2 →
  complex_of_float (float_of_int (get Spin.I i j)) = Spin.delta i j.
Proof. intros Hi Hj. two_by_two i j; by_evaluation. Qed.

Lemma half_index (i : nat) : i < 4 → i / 2 < 2 ∧ i mod 2 < 2.
Proof.
  intros Hi. split.
  - apply Nat.Div0.div_lt_upper_bound. lia.
  - apply Nat.mod_upper_bound. lia.
Qed.

(** ** The Hamiltonian cells against the formula *)

Lemma bind_Some_eq {A B} (f : A → option B) (x : A) : Some x ≫= f = f x.
Proof. done. Qed.

Section hamiltonian_formula.
Variables (gn mu_n ge mu_B A e h : Qc) (b0 b1 b2 : Z) (rest : list Z).
Local Abbreviation B := (b0 :: b1 :: b2 :: rest).

Ltac expose_entries :=
  cbn [mul add div upl upr float64_num complex128_num float64_div complex128_div
       promote_int_int promote_int_float promote_float_int promote_float_float
       promote_int_complex promote_complex_int promote_float_complex
       promote_complex_float promote_complex_complex].

Ltac read_field :=
  change (B !! 0) with (Some b0); change (B !! 1) with (Some b1);
  change (B !! 2) with (Some b2); repeat (rewrite bind_Some_eq; cbv beta).

Ltac spin_entries :=
  rewrite ?complex_of_float_mul, ?get_X, ?get_Y, ?get_Z, ?get_I by done.

Lemma H_zn_rhs_table :
  Spin.H_zn_rhs gn mu_n B Spin.I Spin.X Spin.Y Spin.Z =
    Some (mk_array 4 4 (Spin.zeeman_n gn mu_n B)).
Proof.
  unfold Spin.H_zn_rhs. read_field.
  rewrite !np_kron_2x2 by reflexivity.
  rewrite !np_mul_s_mk_array, np_add_mk_array. rewrite bind_Some_eq; cbv beta.
  rewrite np_add_mk_array. rewrite bind_Some_eq; cbv beta.
  rewrite np_mul_s_mk_array. apply (f_equal Some).
  apply mk_array_ext. intros i j Hi Hj.
  destruct (half_index i Hi), (half_index j Hj).
  expose_entries. spin_entries.
  rewrite <- (complex_of_float_mul gn mu_n). reflexivity.
Qed.

Lemma H_ze_rhs_table :
  Spin.H_ze_rhs ge mu_B B Spin.I Spin.X Spin.Y Spin.Z =
    Some (mk_array 4 4 (Spin.zeeman_e ge mu_B B)).
Proof.
  unfold Spin.H_ze_rhs. read_field.
  rewrite !np_kron_2x2 by reflexivity.
  rewrite !np_mul_s_mk_array, np_add_mk_array. rewrite bind_Some_eq; cbv beta.
  rewrite np_add_mk_array. rewrite bind_Some_eq; cbv beta.
  rewrite np_mul_s_mk_array. apply (f_equal Some).
  apply mk_array_ext. intros i j Hi Hj.
  destruct (half_index i Hi), (half_index j Hj).
  expose_entries. spin_entries.
  rewrite <- (complex_of_float_mul ge mu_B). reflexivity.
Qed.

Lemma H_hf_rhs_table :
  Spin.H_hf_rhs A Spin.X Spin.Y Spin.Z = Some (mk_array 4 4 (Spin.hyperfine A)).
Proof.
  unfold Spin.H_hf_rhs.
  rewrite !np_kron_2x2 by reflexivity.
  rewrite np_add_mk_array. rewrite bind_Some_eq; cbv beta.
  rewrite np_add_mk_array. rewrite bind_Some_eq; cbv beta.
  rewrite np_mul_s_mk_array. apply (f_equal Some).
  apply mk_array_ext. intros i j Hi Hj.
  destruct (half_index i Hi), (half_index j Hj).
  expose_entries. spin_entries. reflexivity.
Qed.

Lemma H_z_rhs_table (zn ze : nat → nat → complex) :
  Spin.H_z_rhs (mk_array 4 4 zn) (mk_array 4 4 ze) e h =
    Some (mk_array 4 4 (λ i j,
            Cmul (Cadd (zn i j) (ze i j)) (Spin.real (e / h)))).
Proof.
  unfold Spin.H_z_rhs.
  rewrite np_add_mk_array. rewrite bind_Some_eq; cbv beta.
  rewrite np_mul_r_mk_array, np_div_r_mk_array. apply (f_equal Some).
  apply mk_array_ext. intros i j _ _.
  expose_entries. unfold div. rewrite Cdiv_real.
  unfold Qcdiv. generalize (Cadd (zn i j) (ze i j)). intros z.
  complex_ring.
Qed.

End hamiltonian_formula.

(** ** The formula is Hermitian *)

Lemma herm_delta : herm Spin.delta.
Proof.
  intros i j. unfold Spin.delta. repeat case_decide; try lia; by_evaluation.
Qed.

Lemma herm_sigma_x : herm Spin.sigma_x.
Proof.
  intros i j. unfold Spin.sigma_x. repeat case_decide; try lia; by_evaluation.
Qed.

Lemma herm_sigma_y : herm Spin.sigma_y.
Proof.
  intros i j. unfold Spin.sigma_y. repeat case_decide; try lia; by_evaluation.
Qed.

Lemma herm_sigma_z : herm Spin.sigma_z.
Proof.
  intros i j. unfold Spin.sigma_z. repeat case_decide; try lia; by_evaluation.
Qed.

Lemma herm_half s : herm s → herm (Spin.half s).
Proof.
  intros Hs i j. unfold Spin.half. rewrite (Hs i j). complex_ring.
Qed.

Lemma herm_tensor a b : herm a → herm b → herm (Spin.tensor a b).
Proof.
  intros Ha Hb i j. unfold Spin.tensor.
  rewrite (Ha (i / 2) (j / 2)), (Hb (i mod 2) (j mod 2)). complex_ring.
Qed.

Lemma herm_field_dot B op :
  (∀ s, herm s → herm (op s)) → herm (Spin.field_dot B op).
Proof.
  intros Hop i j. unfold Spin.field_dot.
  rewrite (Hop _ (herm_half _ herm_sigma_x) i j),
          (Hop _ (herm_half _ herm_sigma_y) i j),
          (Hop _ (herm_half _ herm_sigma_z) i j).
  complex_ring.
Qed.

(** A square table of Hermitian entries is a Hermitian array and equals the
    conjugate of its transpose. *)
Lemma hermitian_mk_array n (f : nat → nat → complex) :
  herm f → hermitian (mk_array n n f).
Proof.
  intros Hf. split; [done|]. unfold nrows. simpl. intros i j Hi Hj.
  rewrite !get_mk_array by done. apply Hf.
Qed.

(** ** The spin Hamiltonian in binary64 *)


Ltac four_by_four i j :=
  destruct i as [|[|[|[|i]]]]; [| | | |lia];
  (destruct j as [|[|[|[|j]]]]; [| | | |lia]).

(** C1: the assembled 4-by-4 spin Hamiltonian
    [H = (H_zn + H_ze)*e/h + H_hf], built in binary64 from the constants of
    the notebook and the field [B = [1, 1, 0]], is Hermitian: every entry is
    a finite number and [H == H.conj().T] holds at every position. *)
Theorem spin_hamiltonian_hermitian :
  ∃ m, Spin64.H = Some m ∧ shape m = (4, 4) ∧ wf m ∧
       Forall (Forall (λ z, c128_finite z = true)) (rows m) ∧
       is_hermitian m = true ∧
       ∀ i j, i < 4 → j < 4 → equal (get m i j) (conj (get m j i)) = true.
Proof.
  eexists. split; [vm_compute; reflexivity|].
  split; [reflexivity|].
  split; [split; [reflexivity|repeat constructor]|].
  split; [repeat constructor|].
  split; [vm_compute; reflexivity|].
  intros i j Hi Hj. four_by_four i j; vm_compute; reflexivity.
Qed.

(** C2: the spin Hamiltonian is the nuclear Zeeman term plus the electron
    Zeeman term, both converted from eV to Hz, plus the hyperfine term, with
    [X], [Y], [Z] one half times the Pauli matrices and [I] the 2-by-2
    identity.  The arrays the cells compute are compared, by [==] at every
    position, with the terms written entry by entry; the conversion is the
    cell's [*e/h], the product with [e] followed by the quotient by [h].
    Last, every entry of [H] is the entry of the real-number formula, with
    the single factor [e/h] and the constants as the decimals spell them, up
    to a relative error of [2^-52]. *)
Theorem spin_hamiltonian_construction :
  (np_array_equal (amap c128_of_b64 Spin64.X)
     (mk_array 2 2 (Spin64.half Spin64.sigma_x)) = true ∧
   np_array_equal Spin64.Y (mk_array 2 2 (Spin64.half Spin64.sigma_y)) = true ∧
   np_array_equal (amap c128_of_b64 Spin64.Z)
     (mk_array 2 2 (Spin64.half Spin64.sigma_z)) = true ∧
   np_array_equal (amap (λ n, c128_of_b64 (b64_of_int n)) Spin64.I)
     (mk_array 2 2 Spin64.delta) = true) ∧
  ∃ zn ze hf m,
    (Spin64.H_zn = Some zn ∧ Spin64.H_ze = Some ze ∧
     Spin64.H_hf = Some hf ∧ Spin64.H = Some m) ∧
    np_array_equal zn
      (mk_array 4 4 (Spin64.zeeman_n Spin64.gn Spin64.mu_n Spin64.B)) = true ∧
    np_array_equal ze
      (mk_array 4 4 (Spin64.zeeman_e Spin64.ge Spin64.mu_B Spin64.B)) = true ∧
    np_array_equal hf (mk_array 4 4 (Spin64.hyperfine Spin64.A)) = true ∧
    np_array_equal m
      (mk_array 4 4 (λ i j,
         c128_add (Spin64.to_Hz Spin64.e Spin64.h
                     (c128_add (get zn i j) (get ze i j)))
                  (get hf i j))) = true ∧
    np_array_equal m
      (mk_array 4 4 (Spin64.H_formula Spin64.gn Spin64.mu_n Spin64.ge
                       Spin64.mu_B Spin64.A Spin64.e Spin64.h Spin64.B)) = true ∧
    ∀ i j, i < 4 → j < 4 →
      approximates (1 # 2 ^ 52) (c_re (get m i j)) (re (Spin.H_spec i j)) = true ∧
      approximates (1 # 2 ^ 52) (c_im (get m i j)) (im (Spin.H_spec i j)) = true.
Proof.
  split.
  { do 3 (split; [vm_compute; reflexivity|]). vm_compute; reflexivity. }
  do 4 eexists. split.
  { do 3 (split; [vm_compute; reflexivity|]). vm_compute; reflexivity. }
  do 5 (split; [vm_compute; reflexivity|]).
  intros i j Hi Hj. four_by_four i j; split; vm_compute; reflexivity.
Qed.

(** ** Running the Hamiltonian cells *)

(** Resolve the reads of a cell against what earlier assignments bound. *)
Ltac ns_lookup :=
  repeat first
    [ rewrite lookup_insert_eq
    | rewrite lookup_insert_ne by done
    | match goal with
      | H : ?ρ !! ?x = Some _ |- context [?ρ !! ?x] => rewrite H
      end
    | rewrite bind_Some_eq; cbv beta iota ].

Ltac unfold_loads :=
  unfold Spin.load_float, Spin.load_int_vec, Spin.load_int_arr,
    Spin.load_float_arr, Spin.load_complex_arr.

Section run_facts.
Variables (gn mu_n ge mu_B A e h : Qc) (b0 b1 b2 : Z) (rest : list Z).
Local Abbreviation B := (b0 :: b1 :: b2 :: rest).

Lemma cell_H_zn_run (ρ : gmap string Spin.value) :
  ρ !! "gn" = Some (Spin.VFloat gn) → ρ !! "mu_n" = Some (Spin.VFloat mu_n) →
  ρ !! "B" = Some (Spin.VIntVec B) →
  ρ !! "I" = Some (Spin.VIntArr Spin.I) →
  ρ !! "X" = Some (Spin.VFloatArr Spin.X) →
  ρ !! "Y" = Some (Spin.VComplexArr Spin.Y) →
  ρ !! "Z" = Some (Spin.VFloatArr Spin.Z) →
  Spin.cell_H_zn ρ =
    Some (<["H_zn" := Spin.VComplexArr (mk_array 4 4 (Spin.zeeman_n gn mu_n B))]> ρ).
Proof.
  intros. unfold Spin.cell_H_zn. unfold_loads.
  ns_lookup. rewrite H_zn_rhs_table. by ns_lookup.
Qed.

Lemma cell_H_run (ρ : gmap string Spin.value) :
  ρ !! "ge" = Some (Spin.VFloat ge) → ρ !! "mu_B" = Some (Spin.VFloat mu_B) →
  ρ !! "e" = Some (Spin.VFloat e) → ρ !! "h" = Some (Spin.VFloat h) →
  ρ !! "A" = Some (Spin.VFloat A) →
  ρ !! "B" = Some (Spin.VIntVec B) →
  ρ !! "I" = Some (Spin.VIntArr Spin.I) →
  ρ !! "X" = Some (Spin.VFloatArr Spin.X) →
  ρ !! "Y" = Some (Spin.VComplexArr Spin.Y) →
  ρ !! "Z" = Some (Spin.VFloatArr Spin.Z) →
  ρ !! "H_zn" =
    Some (Spin.VComplexArr (mk_array 4 4 (Spin.zeeman_n gn mu_n B))) →
  ∃ ρ', Spin.cell_H ρ = Some ρ' ∧
        ρ' !! "H" =
          Some (Spin.VComplexArr
                  (mk_array 4 4 (Spin.H_formula gn mu_n ge mu_B A e h B))) ∧
        ∀ x, x ≠ "H_ze" → x ≠ "H_z" → x ≠ "H_hf" → x ≠ "H" → ρ' !! x = ρ !! x.
Proof.
  intros. unfold Spin.cell_H. unfold_loads.
  ns_lookup. rewrite H_ze_rhs_table. ns_lookup.
  rewrite H_z_rhs_table. ns_lookup.
  rewrite H_hf_rhs_table. ns_lookup.
  unfold Spin.H_rhs. rewrite np_add_mk_array. ns_lookup.
  eexists. split; [done|]. split.
  - rewrite lookup_insert_eq. do 2 f_equal.
  - intros x ? ? ? ?. by rewrite !lookup_insert_ne.
Qed.
End run_facts.

(** ** Running the Hamiltonian cells in binary64 *)








(** ** The statements of the notebook *)

(** C7, as stated, fails: the notebook defines two functions, not three. *)
Lemma helper_functions_are_two :
  length Notebook.helper_functions = 2.
Proof. reflexivity. Qed.

(** C7, amended: the notebook defines exactly two helper functions, the
    colorbar-plot wrapper [matshow_cbar] and the tridiagonal generator
    [forward_diff_mat]; the spin Hamiltonian is assembled by assignments at
    the top level of two cells, and no function body assigns any of its
    terms. *)
Theorem notebook_helper_functions :
  Notebook.helper_functions = ["matshow_cbar"; "forward_diff_mat"] ∧
  Notebook.code_cells !! 6 = Some [Notebook.Assign ["H_zn"]; Notebook.Expr "print"] ∧
  Notebook.code_cells !! 8 =
    Some [Notebook.Assign ["H_ze"]; Notebook.Assign ["H_z"];
          Notebook.Assign ["H_hf"]; Notebook.Assign ["H"]] ∧
  Notebook.assigned_in_functions = ["fig"; "ax"; "cax"] ∧
  Forall (λ x, x ∈ Notebook.top_level_assignments ∧
               x ∉ Notebook.assigned_in_functions)
         ["H_zn"; "H_ze"; "H_z"; "H_hf"; "H"].
Proof.
  split; [reflexivity|]. split; [reflexivity|].
  split; [reflexivity|]. split; [reflexivity|].
  apply (bool_decide_unpack _). vm_compute. exact Logic.I.
Qed.

(** * Further properties of the cells' code *)

(** ** [np.diag], dense sums and scalar multiples *)

(** X1: transposing [np.diag(v, k)] gives [np.diag(v, -k)]; the two
    off-diagonal terms of [forward_diff_mat] are each other's transpose. *)
Theorem transpose_np_diag `{Num A} (v : list A) (k : Z) :
  transpose (np_diag v k) = np_diag v (- k).
Proof.
  unfold transpose, np_diag, nrows, ncols. cbn [shape mk_array fst snd].
  replace (Z.abs_nat (- k)) with (Z.abs_nat k) by lia.
  apply mk_array_ext. intros i j Hi Hj.
  rewrite get_mk_array by done.
  rewrite (Nat.min_comm j i).
  repeat case_decide; try done; lia.
Qed.

(** X2: for every [nodes >= 1] the matrix [-20*forward_diff_mat(nodes)] of
    the sparse cells has [40] on the diagonal, [-20] next to it and [0]
    elsewhere; the 64-bit arithmetic never wraps. *)
Theorem scaled_forward_diff_mat_entries (nodes : Z) :
  (1 ≤ nodes)%Z →
  ∃ m, (a ← forward_diff_mat nodes; Some (np_mul_s (-20)%Z a)) = Some m ∧
       shape m = (Z.to_nat nodes, Z.to_nat nodes) ∧ wf m ∧ int64_array m ∧
       ∀ i j, i < Z.to_nat nodes → j < Z.to_nat nodes →
         item m i j =
           Some (if decide (i = j) then 40%Z
                 else if decide (i = S j ∨ j = S i) then (-20)%Z
                 else 0%Z).
Proof.
  intros Hn. rewrite forward_diff_mat_tridiag by done.
  rewrite bind_Some_eq, np_mul_s_tridiag.
  eexists. split; [done|]. split; [done|]. split; [apply wf_mk_array|]. split.
  - apply Forall_rows_mk_array. intros i j _ _. apply wrap64_range.
  - intros i j Hi Hj. rewrite item_mk_array by done. f_equal.
    unfold tridiag_entry. repeat case_decide; try done; lia.
Qed.

Lemma scaled_forward_diff_mat_entries_witness :
  (1 ≤ 10000)%Z ∧
  ∃ m, (a ← forward_diff_mat 10000; Some (np_mul_s (-20)%Z a)) = Some m ∧
       shape m = (Z.to_nat 10000, Z.to_nat 10000) ∧ wf m ∧ int64_array m ∧
       ∀ i j, i < Z.to_nat 10000 → j < Z.to_nat 10000 →
         item m i j =
           Some (if decide (i = j) then 40%Z
                 else if decide (i = S j ∨ j = S i) then (-20)%Z
                 else 0%Z).
Proof. split; [lia|]. apply (scaled_forward_diff_mat_entries 10000). lia. Defined.

(** X3: the dense sum [a + a] of the timing cell is the array [2*a], for
    every well-formed [int64] array, overflow included. *)
Theorem np_add_self_double (a : ndarray Z) :
  wf a → np_add a a = Some (np_mul_s 2%Z a).
Proof.
  intros Hwf. rewrite (np_add_same_shape a a (nrows a) (ncols a))
    by (by destruct a as [[??]?]).
  f_equal. rewrite (wf_mk_array_get a Hwf) at 3.
  unfold np_mul_s. rewrite amap_mk_array.
  apply mk_array_ext. intros i j _ _. simpl. f_equal. lia.
Qed.

Lemma np_add_self_double_witness :
  wf (np_array [[1; 2]; [3; 4]]%Z) ∧
  np_add (np_array [[1; 2]; [3; 4]]%Z) (np_array [[1; 2]; [3; 4]]%Z) =
    Some (np_mul_s 2%Z (np_array [[1; 2]; [3; 4]]%Z)).
Proof.
  assert (wf (np_array [[1; 2]; [3; 4]]%Z)) as Hwf
    by (split; [reflexivity|repeat constructor]).
  split; [exact Hwf|]. apply (np_add_self_double _ Hwf).
Defined.

(** ** The spin Hamiltonian for any field *)





(** X5: the real part of a Hermitian array is symmetric and its imaginary
    part antisymmetric: what the two plots of [np.real(H_zn)] and
    [np.imag(H_zn)] show. *)
Theorem hermitian_real_imag (m : ndarray complex) :
  wf m → hermitian m →
  transpose (np_real m) = np_real m ∧
  transpose (np_imag m) = amap Qcopp (np_imag m).
Proof.
  intros Hwf [Hsq Hm]. rewrite (wf_mk_array_get m Hwf).
  rewrite <- Hsq. unfold np_real, np_imag, transpose.
  rewrite !amap_mk_array. unfold nrows, ncols. cbn [shape mk_array fst snd].
  split; apply mk_array_ext; intros i j Hi Hj;
    rewrite get_mk_array by done; rewrite (Hm j i) by done; done.
Qed.

Lemma hermitian_real_imag_witness :
  wf (mk_array 4 4 (Spin.zeeman_n Spin.gn Spin.mu_n Spin.B)) ∧
  hermitian (mk_array 4 4 (Spin.zeeman_n Spin.gn Spin.mu_n Spin.B)) ∧
  transpose (np_real (mk_array 4 4 (Spin.zeeman_n Spin.gn Spin.mu_n Spin.B))) =
    np_real (mk_array 4 4 (Spin.zeeman_n Spin.gn Spin.mu_n Spin.B)) ∧
  transpose (np_imag (mk_array 4 4 (Spin.zeeman_n Spin.gn Spin.mu_n Spin.B))) =
    amap Qcopp (np_imag (mk_array 4 4 (Spin.zeeman_n Spin.gn Spin.mu_n Spin.B))).
Proof.
  assert (herm (Spin.zeeman_n Spin.gn Spin.mu_n Spin.B)) as Hz.
  { intros i j. unfold Spin.zeeman_n.
    rewrite (herm_field_dot Spin.B (λ s, Spin.tensor s Spin.delta)
               (λ s Hs, herm_tensor _ _ Hs herm_delta) i j).
    complex_ring. }
  split; [apply wf_mk_array|]. split; [by apply hermitian_mk_array|].
  apply (hermitian_real_imag _ (wf_mk_array _ _ _) (hermitian_mk_array _ _ Hz)).
Defined.

(** X6: a field with fewer than three components makes the Hamiltonian
    cells fail ([B[2]] raises [IndexError]), whatever the other globals. *)
Theorem short_field_fails (gn mu_n ge mu_B A e h : Qc) (B : list Z)
    (I : ndarray Z) (X : ndarray Qc) (Y : ndarray complex) (Z' : ndarray Qc) :
  length B < 3 →
  Spin.H_zn_rhs gn mu_n B I X Y Z' = None ∧
  Spin.H_ze_rhs ge mu_B B I X Y Z' = None ∧
  Spin.H_from_constants gn mu_n ge mu_B A e h B = None.
Proof.
  intros HB. destruct B as [|b0 [|b1 [|b2 B]]]; simpl in HB; try lia;
    repeat split; reflexivity.
Qed.

Lemma short_field_fails_witness :
  length [1; 1]%Z < 3 ∧
  Spin.H_zn_rhs Spin.gn Spin.mu_n [1; 1]%Z Spin.I Spin.X Spin.Y Spin.Z = None ∧
  Spin.H_ze_rhs Spin.ge Spin.mu_B [1; 1]%Z Spin.I Spin.X Spin.Y Spin.Z = None ∧
  Spin.H_from_constants Spin.gn Spin.mu_n Spin.ge Spin.mu_B Spin.A Spin.e Spin.h
    [1; 1]%Z = None.
Proof.
  split; [simpl; lia|].
  apply (short_field_fails Spin.gn Spin.mu_n Spin.ge Spin.mu_B Spin.A Spin.e
           Spin.h [1; 1]%Z Spin.I Spin.X Spin.Y Spin.Z).
  simpl; lia.
Defined.

(** ** The cells and the kernel's namespace *)

(** Step through the reads and assignments of a cell that ends in failure. *)
Ltac cell_fails Hn :=
  repeat (repeat first [rewrite lookup_insert_eq | rewrite lookup_insert_ne by done];
          rewrite ?Hn;
          first
            [ reflexivity
            | lazymatch goal with
              | |- mbind _ ?t = None =>
                  destruct t eqn:?; [|reflexivity];
                  rewrite bind_Some_eq; cbv beta zeta
              end ]).

(** X7: a Hamiltonian cell run before the cells that bind what it reads
    fails ([NameError]): [H_zn]'s cell needs [gn], [mu_n], [B], [I], [X], [Y]
    and [Z], the cell of [H] needs the constants, the spin matrices and
    [H_zn], and the diagonalisation needs [H]. *)
Theorem cells_fail_on_unbound_names
    (eigh : ndarray complex → option (list Qc * ndarray complex))
    (ρ : gmap string Spin.value) (x : string) :
  ρ !! x = None →
  (x ∈ ["gn"; "mu_n"; "B"; "I"; "X"; "Y"; "Z"] → Spin.cell_H_zn ρ = None) ∧
  (x ∈ ["ge"; "mu_B"; "B"; "I"; "X"; "Y"; "Z"; "H_zn"; "e"; "h"; "A"] →
     Spin.cell_H ρ = None) ∧
  (x = "H" → Spin.cell_eigh eigh ρ = None).
Proof.
  intros Hn. repeat split.
  - intros Hx. unfold Spin.cell_H_zn. unfold_loads.
    repeat (apply elem_of_cons in Hx as [->|Hx]);
      [..|by apply elem_of_nil in Hx]; cell_fails Hn.
  - intros Hx. unfold Spin.cell_H. unfold_loads. cbv zeta.
    repeat (apply elem_of_cons in Hx as [->|Hx]);
      [..|by apply elem_of_nil in Hx]; cell_fails Hn.
  - intros ->. unfold Spin.cell_eigh. unfold_loads. by rewrite Hn.
Qed.

Lemma cells_fail_on_unbound_names_witness :
  (∅ : gmap string Spin.value) !! "gn" = None ∧
  (("gn" : string) ∈ ["gn"; "mu_n"; "B"; "I"; "X"; "Y"; "Z"] →
     Spin.cell_H_zn ∅ = None) ∧
  (("gn" : string) ∈ ["ge"; "mu_B"; "B"; "I"; "X"; "Y"; "Z"; "H_zn"; "e"; "h"; "A"] →
     Spin.cell_H ∅ = None) ∧
  (("gn" : string) = "H" → Spin.cell_eigh (λ _, None) ∅ = None).
Proof.
  split; [reflexivity|].
  apply (cells_fail_on_unbound_names (λ _, None) ∅ "gn"). reflexivity.
Defined.

(** Step through the reads and assignments of a cell that succeeded. *)
Ltac cell_succeeds H :=
  repeat lazymatch type of H with
         | mbind _ ?t = Some _ =>
             destruct t eqn:?; [|discriminate H];
             rewrite bind_Some_eq in H; cbv beta zeta in H
         end.

(** X8: the Hamiltonian cells rebind only their own targets: [H_zn] for the
    first, [H_ze], [H_z], [H_hf] and [H] for the second; every other global,
    the constants among them, is left as it was. *)
Theorem hamiltonian_cells_frame (ρ ρ' : gmap string Spin.value) (x : string) :
  (Spin.cell_H_zn ρ = Some ρ' → x ≠ "H_zn" → ρ' !! x = ρ !! x) ∧
  (Spin.cell_H ρ = Some ρ' →
     x ≠ "H_ze" → x ≠ "H_z" → x ≠ "H_hf" → x ≠ "H" → ρ' !! x = ρ !! x).
Proof.
  split.
  - intros Hrun Hx. unfold Spin.cell_H_zn in Hrun. cell_succeeds Hrun.
    injection Hrun as <-. by rewrite lookup_insert_ne.
  - intros Hrun ? ? ? ?. unfold Spin.cell_H in Hrun. cbv zeta in Hrun.
    cell_succeeds Hrun. injection Hrun as <-. by rewrite !lookup_insert_ne.
Qed.

Lemma hamiltonian_cells_frame_witness :
  ∃ ρ ρ' : gmap string Spin.value,
    (Spin.cell_constants ∅ ≫= Spin.cell_spin_matrices) = Some ρ ∧
    Spin.cell_H_zn ρ = Some ρ' ∧ ρ' !! "gn" = ρ !! "gn".
Proof.
  eexists _, _. split; [reflexivity|]. cbv zeta.
  assert (∀ ρ ρ' : gmap string Spin.value,
            Spin.cell_H_zn ρ = Some ρ' → ρ' !! "gn" = ρ !! "gn") as Hframe
    by (intros ρ ρ' Hrun;
        by apply (proj1 (hamiltonian_cells_frame ρ ρ' "gn") Hrun)).
  split; [|eapply Hframe];
    rewrite (cell_H_zn_run Spin.gn Spin.mu_n 1 1 0 []) by (by ns_lookup);
    reflexivity.
Defined.

(** ** The CSR structure *)

Section csr_structure.
Context `{Num A}.

Lemma length_cumsum acc (l : list nat) : length (cumsum acc l) = S (length l).
Proof. revert acc. induction l as [|n l IH]; intros acc; simpl; [done|]. by rewrite IH. Qed.

Lemma cumsum_last acc (l : list nat) :
  cumsum acc l !! length l = Some (acc + sum_list l).
Proof.
  revert acc. induction l as [|n l IH]; intros acc; simpl.
  - by rewrite Nat.add_0_r.
  - rewrite IH. f_equal. lia.
Qed.

Lemma cumsum_mono acc (l : list nat) i lo hi :
  cumsum acc l !! i = Some lo → cumsum acc l !! S i = Some hi → lo ≤ hi.
Proof.
  revert acc i. induction l as [|n l IH]; intros acc i Hlo Hhi.
  - by destruct i.
  - destruct i as [|i]; simpl in *.
    + rewrite cumsum_head in Hhi. simplify_eq. lia.
    + by eapply IH.
Qed.

Lemma length_concat_sum {X} (ls : list (list X)) :
  length (concat ls) = sum_list (length <$> ls).
Proof. induction ls as [|l ls IH]; simpl; [done|]. by rewrite length_app, IH. Qed.

(** The stored pairs of a row: exactly the non-zero entries, each at its
    column. *)
Lemma elem_of_row_nonzero (r : list A) (p : nat * A) :
  p ∈ row_nonzero r ↔ r !! p.1 = Some p.2 ∧ is_zero p.2 = false.
Proof.
  unfold row_nonzero. rewrite list_elem_of_In, List.filter_In, <- list_elem_of_In.
  rewrite elem_of_lookup_imap, negb_true_iff. split.
  - intros [(i & x & -> & Hi) Hz]. done.
  - intros [Hi Hz]. split; [|done]. exists p.1, p.2. by destruct p.
Qed.

Lemma row_nonzero_sorted (r : list A) :
  StronglySorted lt (fst <$> row_nonzero r).
Proof.
  induction r as [|x r IH] using rev_ind; [constructor|].
  rewrite row_nonzero_snoc, fmap_app. apply StronglySorted_app_2; [|done|].
  - intros j1 j2 Hj1 Hj2.
    apply list_elem_of_fmap in Hj1 as (p & -> & Hp).
    apply elem_of_row_nonzero in Hp as [Hp _].
    apply lookup_lt_Some in Hp.
    destruct (is_zero x); simpl in Hj2; [by apply elem_of_nil in Hj2|].
    apply list_elem_of_singleton in Hj2 as ->. done.
  - destruct (is_zero x); simpl; repeat constructor.
Qed.

(** The slice of row [i] in the CSR arrays of a dense array is the list of
    the non-zero entries of that row. *)
Lemma csr_row_entries_csr_matrix (a : ndarray A) i r :
  rows a !! i = Some r → csr_row_entries (csr_matrix a) i = row_nonzero r.
Proof.
  intros Hi. unfold csr_row_entries.
  set (nz := row_nonzero <$> rows a).
  assert (nz !! i = Some (row_nonzero r)) as Hnz
    by (unfold nz; by rewrite list_lookup_fmap, Hi).
  destruct (cumsum_concat (fmap (M:=list) fst <$> nz) 0 i (fst <$> row_nonzero r))
    as (off & Hlo & Hhi & Hidx); [by rewrite list_lookup_fmap, Hnz|].
  destruct (cumsum_concat (fmap (M:=list) snd <$> nz) 0 i (snd <$> row_nonzero r))
    as (off' & Hlo' & Hhi' & Hdat); [by rewrite list_lookup_fmap, Hnz|].
  assert (length <$> (fmap (M:=list) fst <$> nz) = length <$> nz) as Hl1.
  { rewrite <- list_fmap_compose. apply list_fmap_ext.
    intros _ l _. simpl. apply length_fmap. }
  assert (length <$> (fmap (M:=list) snd <$> nz) = length <$> nz) as Hl2.
  { rewrite <- list_fmap_compose. apply list_fmap_ext.
    intros _ l _. simpl. apply length_fmap. }
  rewrite Hl1 in Hlo, Hhi. rewrite Hl2 in Hlo'.
  assert (off' = off) as -> by (rewrite Hlo in Hlo'; simplify_eq; lia).
  rewrite length_fmap in Hhi, Hidx. rewrite length_fmap in Hdat.
  change (indptr (csr_matrix a)) with (cumsum 0 (length <$> nz)).
  change (indices (csr_matrix a)) with (concat (fmap (M:=list) fst <$> nz)).
  change (data (csr_matrix a)) with (concat (fmap (M:=list) snd <$> nz)).
  rewrite Hlo, Hhi. simpl.
  replace (off + length (row_nonzero r) - off) with (length (row_nonzero r)) by lia.
  rewrite <- (zip_fst_snd (row_nonzero r)) at 3. f_equal.
  - apply list_eq. intros t.
    destruct (decide (t < length (row_nonzero r))) as [Ht|Ht].
    + by rewrite lookup_take_lt, lookup_drop, Hidx.
    + rewrite lookup_take_ge by lia. symmetry. apply lookup_ge_None.
      rewrite length_fmap. lia.
  - apply list_eq. intros t.
    destruct (decide (t < length (row_nonzero r))) as [Ht|Ht].
    + by rewrite lookup_take_lt, lookup_drop, Hdat.
    + rewrite lookup_take_ge by lia. symmetry. apply lookup_ge_None.
      rewrite length_fmap. lia.
Qed.

(** Past the last row the slice is empty. *)
Lemma csr_row_entries_csr_matrix_None (a : ndarray A) i :
  rows a !! i = None → csr_row_entries (csr_matrix a) i = [].
Proof.
  intros Hi. unfold csr_row_entries.
  change (indptr (csr_matrix a)) with (cumsum 0 (length <$> (row_nonzero <$> rows a))).
  apply lookup_ge_None in Hi.
  rewrite (proj2 (lookup_ge_None _ (S i))); [|rewrite length_cumsum, !length_fmap; lia].
  done.
Qed.
Lemma length_data_csr_matrix (a : ndarray A) :
  length (data (csr_matrix a)) = sum_list (length <$> (row_nonzero <$> rows a)).
Proof.
  change (data (csr_matrix a))
    with (concat (fmap (M:=list) snd <$> (row_nonzero <$> rows a))).
  rewrite length_concat_sum. f_equal.
  rewrite <- list_fmap_compose. apply list_fmap_ext.
  intros _ l _. simpl. apply length_fmap.
Qed.

Lemma length_indices_csr_matrix (a : ndarray A) :
  length (indices (csr_matrix a)) = sum_list (length <$> (row_nonzero <$> rows a)).
Proof.
  change (indices (csr_matrix a))
    with (concat (fmap (M:=list) fst <$> (row_nonzero <$> rows a))).
  rewrite length_concat_sum. f_equal.
  rewrite <- list_fmap_compose. apply list_fmap_ext.
  intros _ l _. simpl. apply length_fmap.
Qed.

Lemma indptr_last_csr_matrix (a : ndarray A) :
  indptr (csr_matrix a) !! length (rows a) = Some (length (data (csr_matrix a))).
Proof.
  rewrite length_data_csr_matrix.
  change (indptr (csr_matrix a)) with (cumsum 0 (length <$> (row_nonzero <$> rows a))).
  replace (length (rows a))
    with (length (length <$> (row_nonzero <$> rows a)))
    by (by rewrite !length_fmap).
  apply cumsum_last.
Qed.
End csr_structure.

(** X9: whatever dense array it is given, [sparse.csr_matrix] builds a CSR
    structure in canonical format: [indptr] has one entry per row and one
    more, starts at 0, never decreases and ends at the number of stored
    entries; [indices] and [data] have that length; every column index is
    inside the shape and columns increase strictly within a row; no zero is
    stored. *)
Theorem csr_matrix_canonical `{Num A} (a : ndarray A) :
  wf a → csr_canonical (csr_matrix a).
Proof.
  intros [Hrows Hcols]. unfold csr_canonical.
  change (csr_shape (csr_matrix a)) with (shape a).
  change (indptr (csr_matrix a)) with (cumsum 0 (length <$> (row_nonzero <$> rows a))).
  change (indices (csr_matrix a))
    with (concat (fmap (M:=list) fst <$> (row_nonzero <$> rows a))).
  change (data (csr_matrix a))
    with (concat (fmap (M:=list) snd <$> (row_nonzero <$> rows a))).
  pose proof (length_data_csr_matrix a) as Hdata.
  pose proof (length_indices_csr_matrix a) as Hind.
  change (indices (csr_matrix a))
    with (concat (fmap (M:=list) fst <$> (row_nonzero <$> rows a))) in Hind.
  change (data (csr_matrix a))
    with (concat (fmap (M:=list) snd <$> (row_nonzero <$> rows a))) in Hdata.
  split; [by rewrite length_cumsum, !length_fmap, Hrows|].
  split; [apply cumsum_head|].
  split.
  { unfold nrows in Hrows. rewrite <- Hrows. apply indptr_last_csr_matrix. }
  split; [intros i lo hi; apply cumsum_mono|].
  split; [by rewrite Hind, Hdata|].
  split.
  { apply Forall_concat, Forall_fmap, Forall_fmap, Forall_forall.
    intros r Hr. simpl. apply Forall_fmap, Forall_forall. intros p Hp. simpl.
    apply elem_of_row_nonzero in Hp as [Hp _]. apply lookup_lt_Some in Hp.
    rewrite Forall_forall in Hcols. rewrite (Hcols r Hr) in Hp. done. }
  split.
  { apply Forall_concat, Forall_fmap, Forall_fmap, Forall_forall.
    intros r Hr. simpl. apply Forall_fmap, Forall_forall. intros p Hp. simpl.
    by apply elem_of_row_nonzero in Hp as [_ Hp]. }
  intros i. destruct (rows a !! i) as [r|] eqn:Hi.
  - rewrite (csr_row_entries_csr_matrix a i r Hi). apply row_nonzero_sorted.
  - rewrite (csr_row_entries_csr_matrix_None a i Hi). constructor.
Qed.

Lemma csr_matrix_canonical_witness :
  wf (np_array [[0; 5]; [7; 0]]%Z) ∧
  csr_canonical (csr_matrix (np_array [[0; 5]; [7; 0]]%Z)).
Proof.
  assert (wf (np_array [[0; 5]; [7; 0]]%Z)) as Hwf
    by (split; [reflexivity|repeat constructor]).
  split; [exact Hwf|]. apply (csr_matrix_canonical _ Hwf).
Defined.

(** X11: converting any well-formed [int64] array to CSR and back with
    [todense] gives the array itself. *)
Theorem csr_round_trip_int64 (a : ndarray Z) :
  wf a → int64_array a → todense (csr_matrix a) = a.
Proof.
  intros Hwf Hr. apply todense_csr_matrix; [done|].
  eapply Forall_impl; [exact Hr|]. intros r Hrow. simpl in Hrow.
  eapply Forall_impl; [exact Hrow|]. intros x Hx. by apply storable_int64.
Qed.

Lemma csr_round_trip_int64_witness :
  wf (np_array [[0; 5]; [7; 0]]%Z) ∧
  int64_array (np_array [[0; 5]; [7; 0]]%Z) ∧
  todense (csr_matrix (np_array [[0; 5]; [7; 0]]%Z)) = np_array [[0; 5]; [7; 0]]%Z.
Proof.
  assert (wf (np_array [[0; 5]; [7; 0]]%Z)) as Hwf
    by (split; [reflexivity|repeat constructor]).
  assert (int64_array (np_array [[0; 5]; [7; 0]]%Z)) as Hr
    by (repeat constructor; unfold int64_range; lia).
  split; [exact Hwf|]. split; [exact Hr|].
  apply (csr_round_trip_int64 _ Hwf Hr).
Defined.

(** ** The CSR structure of the tridiagonal matrix *)

(** How many columns [j < m] lie within one of the diagonal [i]. *)
Lemma length_row_nonzero_tridiag (s : Z) (i m : nat) :
  s ≠ 0%Z → (-1000 < s < 1000)%Z →
  length (row_nonzero ((λ j, wrap64 (s * tridiag_entry i j)) <$> seq 0 m))
  = (m `min` (i + 2)) - pred i.
Proof.
  intros Hs0 Hs. induction m as [|m IH]; [done|].
  rewrite seq_S, fmap_app. cbn [fmap list_fmap Nat.add].
  rewrite row_nonzero_snoc, length_app, IH.
  rewrite length_fmap, length_seq.
  assert (is_zero (wrap64 (s * tridiag_entry i m))
          = bool_decide (¬ (i = m ∨ i = S m ∨ m = S i))) as ->.
  { unfold tridiag_entry. cbn [is_zero int64_num].
    destruct (decide (i = m)); [|destruct (decide (i = S m ∨ m = S i))];
      rewrite wrap64_small by (unfold int64_range; lia);
      apply bool_decide_ext; lia. }
  case_bool_decide; cbn [length]; lia.
Qed.

Lemma cumsum_lookup_S acc (l : list nat) i lo n :
  cumsum acc l !! i = Some lo → l !! i = Some n →
  cumsum acc l !! S i = Some (lo + n).
Proof.
  revert acc i. induction l as [|x l IH]; intros acc i Hlo Hn; [done|].
  destruct i as [|i]; simpl in *.
  - simplify_eq. apply cumsum_head.
  - by apply IH.
Qed.

(** X12: for every [nodes >= 1] the CSR structure of
    [-20*forward_diff_mat(nodes)] stores [3*nodes - 2] entries, against the
    [nodes*nodes] of the dense array: row pointer [i] is [3*i - 1] for
    [0 < i < nodes], [0] at the start and [3*nodes - 2] at the end. *)
Theorem csr_tridiagonal_size (nodes : Z) :
  (1 ≤ nodes)%Z →
  ∃ m, (a ← forward_diff_mat nodes; Some (np_mul_s (-20)%Z a)) = Some m ∧
       length (data (csr_matrix m)) = 3 * Z.to_nat nodes - 2 ∧
       length (indices (csr_matrix m)) = 3 * Z.to_nat nodes - 2 ∧
       length (concat (rows m)) = Z.to_nat nodes * Z.to_nat nodes ∧
       ∀ i, i ≤ Z.to_nat nodes →
         indptr (csr_matrix m) !! i =
           Some (if decide (i = 0) then 0
                 else if decide (i < Z.to_nat nodes) then 3 * i - 1
                 else 3 * Z.to_nat nodes - 2).
Proof.
  intros Hn. rewrite forward_diff_mat_tridiag by done.
  rewrite bind_Some_eq, np_mul_s_tridiag.
  set (n := Z.to_nat nodes). assert (1 ≤ n) as Hn1 by lia.
  set (f := λ i j, wrap64 (-20 * tridiag_entry i j)).
  eexists. split; [done|].
  pose proof (indptr_last_csr_matrix (mk_array n n f)) as Hend.
  assert (length (indices (csr_matrix (mk_array n n f)))
          = length (data (csr_matrix (mk_array n n f)))) as Hlen
    by (by rewrite length_indices_csr_matrix, length_data_csr_matrix).
  assert (length (rows (mk_array n n f)) = n) as Hrn
    by apply (wf_mk_array n n f).
  rewrite Hrn in Hend.
  assert (∀ i, i ≤ n →
            indptr (csr_matrix (mk_array n n f)) !! i =
              Some (if decide (i = 0) then 0
                    else if decide (i < n) then 3 * i - 1 else 3 * n - 2)) as Hptr.
  { intros i. induction i as [|i IH]; intros Hi; [apply cumsum_head|].
    change (indptr (csr_matrix (mk_array n n f)))
      with (cumsum 0 (length <$> (row_nonzero <$> rows (mk_array n n f)))) in *.
    rewrite (cumsum_lookup_S _ _ i _ ((n `min` (i + 2)) - pred i) (IH ltac:(lia))).
    - f_equal. repeat case_decide; lia.
    - simpl. rewrite !list_lookup_fmap, lookup_seq_lt by lia. simpl. f_equal.
      by apply length_row_nonzero_tridiag. }
  assert (length (data (csr_matrix (mk_array n n f))) = 3 * n - 2) as Hdata.
  { rewrite (Hptr n) in Hend by done. simplify_eq.
    rewrite <- Hend. repeat case_decide; lia. }
  split; [done|]. split; [by rewrite Hlen|]. split; [|done].
  rewrite length_concat_sum. cbn [rows mk_array].
  rewrite <- list_fmap_compose.
  erewrite (list_fmap_ext _ (λ _, n));
    [|intros ???; simpl; by rewrite length_fmap, length_seq].
  by rewrite sum_list_fmap_const, length_seq.
Qed.

Lemma csr_tridiagonal_size_witness :
  (1 ≤ 500)%Z ∧
  ∃ m, (a ← forward_diff_mat 500; Some (np_mul_s (-20)%Z a)) = Some m ∧
       length (data (csr_matrix m)) = 3 * Z.to_nat 500 - 2 ∧
       length (indices (csr_matrix m)) = 3 * Z.to_nat 500 - 2 ∧
       length (concat (rows m)) = Z.to_nat 500 * Z.to_nat 500 ∧
       ∀ i, i ≤ Z.to_nat 500 →
         indptr (csr_matrix m) !! i =
           Some (if decide (i = 0) then 0
                 else if decide (i < Z.to_nat 500) then 3 * i - 1
                 else 3 * Z.to_nat 500 - 2).
Proof. split; [lia|]. apply (csr_tridiagonal_size 500). lia. Defined.

(** ** Adding CSR structures *)

Lemma row_nonzero_from_0 `{Num A} (r : list A) :
  row_nonzero r = row_nonzero_from 0 r.
Proof. done. Qed.

Lemma row_nonzero_from_cons `{Num A} k (x : A) (r : list A) :
  row_nonzero_from k (x :: r) = emit k x (row_nonzero_from (S k) r).
Proof.
  unfold row_nonzero_from, emit. rewrite imap_cons. simpl.
  rewrite Nat.add_0_r.
  rewrite (imap_ext _ (λ i y, (S k + i, y))) by (intros; simpl; f_equal; lia).
  by destruct (is_zero x).
Qed.

Lemma row_nonzero_from_ge `{Num A} k (r : list A) p :
  p ∈ row_nonzero_from k r → k ≤ p.1.
Proof.
  unfold row_nonzero_from.
  rewrite list_elem_of_In, List.filter_In, <- list_elem_of_In, elem_of_lookup_imap.
  intros [(i & x & -> & _) _]. simpl. lia.
Qed.

(** Merging against a row whose columns all lie to the right. *)
Lemma merge_add_left (j : nat) (x : Z) (a b : list (nat * Z)) :
  (∀ p, p ∈ b → j < p.1) →
  merge_add ((j, x) :: a) b = emit j (add x zero) (merge_add a b).
Proof.
  intros Hb. destruct b as [|[jb xb] b]; [done|].
  pose proof (Hb (jb, xb) (list_elem_of_here _ _)) as Hj. simpl in Hj.
  cbn [merge_add]. rewrite decide_False by lia. by rewrite decide_True by lia.
Qed.

Lemma merge_add_right (j : nat) (y : Z) (a b : list (nat * Z)) :
  (∀ p, p ∈ a → j < p.1) →
  merge_add a ((j, y) :: b) = emit j (add zero y) (merge_add a b).
Proof.
  intros Ha. destruct a as [|[ja xa] a]; [done|].
  pose proof (Ha (ja, xa) (list_elem_of_here _ _)) as Hj. simpl in Hj.
  cbn [merge_add]. rewrite decide_False by lia. by rewrite decide_False by lia.
Qed.

Lemma merge_add_same (j : nat) (x y : Z) (a b : list (nat * Z)) :
  merge_add ((j, x) :: a) ((j, y) :: b) = emit j (add x y) (merge_add a b).
Proof. cbn [merge_add]. by rewrite decide_True. Qed.

(** Merging the stored entries of two rows gives the stored entries of
    their entrywise sum. *)
Lemma merge_add_row_nonzero (r1 r2 : list Z) :
  ∀ k, length r1 = length r2 →
       merge_add (row_nonzero_from k r1) (row_nonzero_from k r2)
       = row_nonzero_from k (zip_with add r1 r2).
Proof.
  revert r2. induction r1 as [|x r1 IH]; intros [|y r2] k Hlen; try done.
  simpl in Hlen. cbn [zip_with]. rewrite !row_nonzero_from_cons.
  assert (∀ (r : list Z) p, p ∈ row_nonzero_from (S k) r → k < p.1) as Hright
    by (intros r p Hp; apply row_nonzero_from_ge in Hp; lia).
  rewrite <- (IH r2 (S k)) by lia.
  unfold emit at 1 2.
  destruct (is_zero x) eqn:Hx; destruct (is_zero y) eqn:Hy.
  - apply bool_decide_eq_true in Hx, Hy. subst. done.
  - apply bool_decide_eq_true in Hx. subst.
    apply merge_add_right. intros p. apply Hright.
  - apply bool_decide_eq_true in Hy. subst.
    apply merge_add_left. intros p. apply Hright.
  - apply merge_add_same.
Qed.

(** A table of wrapped sums converts to CSR and back. *)
Lemma csr_round_trip_sum (a b : ndarray Z) r c :
  todense (csr_matrix (mk_array r c (λ i j,
             add (upl (B:=Z) (get a i j)) (upr (A:=Z) (get b i j)))))
  = mk_array r c (λ i j, add (upl (B:=Z) (get a i j)) (upr (A:=Z) (get b i j))).
Proof.
  apply todense_csr_matrix; [apply wf_mk_array|].
  apply Forall_rows_mk_array. intros i j _ _.
  apply storable_int64, wrap64_range.
Qed.

(** X13: adding two arrays in CSR form is adding them densely.  For
    well-formed [int64] arrays of one shape the CSR sum of their CSR
    structures is the CSR structure of their dense sum, zero sums dropped
    and overflow included, and [todense] gives the dense sum back. *)
Theorem csr_add_csr_matrix (a b : ndarray Z) :
  wf a → wf b → shape a = shape b →
  ∃ c, np_add a b = Some c ∧
       csr_add (csr_matrix a) (csr_matrix b) = Some (csr_matrix c) ∧
       todense (csr_matrix c) = c.
Proof.
  intros Hwa Hwb Hsh.
  destruct a as [[r c] la], b as [[r' c'] lb]. simpl in Hsh.
  injection Hsh as <- <-.
  set (a := NdArray (r, c) la) in *. set (b := NdArray (r, c) lb) in *.
  rewrite (np_add_same_shape a b r c) by done.
  eexists. split; [done|]. split.
  - unfold csr_add. rewrite decide_True by done.
    f_equal. change (csr_shape (csr_matrix a)) with (r, c). cbn [fst].
    assert ((λ i, merge_add (csr_row_entries (csr_matrix a) i)
                            (csr_row_entries (csr_matrix b) i)) <$> seq 0 r
            = row_nonzero <$>
                ((λ i, (λ j, add (upl (B:=Z) (get a i j)) (upr (A:=Z) (get b i j)))
                         <$> seq 0 c) <$> seq 0 r)) as Hrows.
    { rewrite <- list_fmap_compose. apply list_fmap_ext.
      intros i x Hx. apply lookup_seq in Hx as [-> Hi]. simpl.
      destruct Hwa as [Hra Hca], Hwb as [Hrb Hcb].
      unfold nrows, ncols in *. simpl in Hra, Hca, Hrb, Hcb.
      destruct (lookup_lt_is_Some_2 la i) as [ra Hia]; [lia|].
      destruct (lookup_lt_is_Some_2 lb i) as [rb Hib]; [lia|].
      rewrite (csr_row_entries_csr_matrix a i ra Hia),
              (csr_row_entries_csr_matrix b i rb Hib).
      assert (length ra = c) as Hla
        by (rewrite Forall_forall in Hca; apply Hca; by eapply list_elem_of_lookup_2).
      assert (length rb = c) as Hlb
        by (rewrite Forall_forall in Hcb; apply Hcb; by eapply list_elem_of_lookup_2).
      rewrite !row_nonzero_from_0, merge_add_row_nonzero by lia. f_equal.
      apply list_eq. intros j. rewrite lookup_zip_with, list_lookup_fmap.
      destruct (decide (j < c)) as [Hj|Hj].
      - rewrite lookup_seq_lt by done.
        destruct (lookup_lt_is_Some_2 ra j) as [x Hx]; [lia|].
        destruct (lookup_lt_is_Some_2 rb j) as [y Hy]; [lia|].
        rewrite Hx, Hy. simpl. unfold get, item. simpl.
        rewrite Hia, Hib. simpl. by rewrite Hx, Hy.
      - rewrite lookup_seq_ge by lia.
        rewrite (proj2 (lookup_ge_None ra j)) by lia. done. }
    rewrite Hrows. reflexivity.
  - apply csr_round_trip_sum.
Qed.

Lemma csr_add_csr_matrix_witness :
  wf (np_array [[1; 0]; [0; -3]]%Z) ∧ wf (np_array [[-1; 2]; [0; 3]]%Z) ∧
  shape (np_array [[1; 0]; [0; -3]]%Z) = shape (np_array [[-1; 2]; [0; 3]]%Z) ∧
  ∃ c, np_add (np_array [[1; 0]; [0; -3]]%Z) (np_array [[-1; 2]; [0; 3]]%Z) = Some c ∧
       csr_add (csr_matrix (np_array [[1; 0]; [0; -3]]%Z))
               (csr_matrix (np_array [[-1; 2]; [0; 3]]%Z)) = Some (csr_matrix c) ∧
       todense (csr_matrix c) = c.
Proof.
  assert (wf (np_array [[1; 0]; [0; -3]]%Z)) as Ha
    by (split; [reflexivity|repeat constructor]).
  assert (wf (np_array [[-1; 2]; [0; 3]]%Z)) as Hb
    by (split; [reflexivity|repeat constructor]).
  split; [exact Ha|]. split; [exact Hb|]. split; [reflexivity|].
  apply (csr_add_csr_matrix _ _ Ha Hb). reflexivity.
Defined.

(** ** Compressed sparse columns *)

Lemma mk_array_inj `{Num A} r c (f g : nat → nat → A) i j :
  mk_array r c f = mk_array r c g → i < r → j < c → f i j = g i j.
Proof.
  intros Heq Hi Hj.
  rewrite <- (get_mk_array r c f i j), <- (get_mk_array r c g i j) by done.
  by rewrite Heq.
Qed.

(** X14: for a symmetric array the CSC structure has the very arrays of the
    CSR structure, which is why the two print alike for the notebook's
    matrix. *)
Theorem csc_matrix_symmetric `{Num A} (a : ndarray A) :
  wf a → transpose a = a → csc_matrix a = csr_matrix a.
Proof.
  intros Hwf Hsym. rewrite (wf_mk_array_get a Hwf) in Hsym |- *.
  set (r := nrows a) in *. set (c := ncols a) in *. set (f := get a) in *.
  unfold transpose in Hsym.
  change (ncols (mk_array r c f)) with c in Hsym.
  change (nrows (mk_array r c f)) with r in Hsym.
  assert (c = r) as -> by (by injection Hsym).
  assert (∀ i j, i < r → j < r → f j i = f i j) as Hf.
  { intros i j Hi Hj.
    rewrite <- (mk_array_inj r r _ f i j Hsym Hi Hj).
    by rewrite get_mk_array. }
  unfold csc_matrix, csr_matrix, csr_of_rows.
  change (ncols (mk_array r r f)) with r. cbn [shape rows mk_array].
  assert (col_nonzero (mk_array r r f) <$> seq 0 r
          = row_nonzero <$> ((λ i, (λ j, f i j) <$> seq 0 r) <$> seq 0 r)) as ->.
  { rewrite <- list_fmap_compose. apply list_fmap_ext.
    intros k j Hk. apply lookup_seq in Hk as [-> Hj]. simpl.
    unfold col_nonzero, row_nonzero. f_equal.
    apply list_eq. intros i. rewrite !list_lookup_imap. cbn [rows mk_array].
    rewrite !list_lookup_fmap.
    destruct (decide (i < r)) as [Hi|Hi].
    - rewrite lookup_seq_lt by done. simpl.
      rewrite list_lookup_fmap, lookup_seq_lt by done. simpl.
      by rewrite Hf.
    - by rewrite lookup_seq_ge by lia. }
  done.
Qed.

Lemma csc_matrix_symmetric_witness :
  ∃ m, SparseDemo.H = Some m ∧ wf m ∧ transpose m = m ∧
       csc_matrix m = csr_matrix m.
Proof.
  eexists. split; [apply SparseDemo_H_table|].
  assert (∀ i j, wrap64 (-20 * tridiag_entry i j) = wrap64 (-20 * tridiag_entry j i))
    as Hs by (intros i j; by rewrite tridiag_entry_sym).
  split; [apply wf_mk_array|]. split; [by apply transpose_mk_array_sym|].
  apply (csc_matrix_symmetric _ (wf_mk_array _ _ _)
           (transpose_mk_array_sym _ _ Hs)).
Defined.

(** ** Dictionary of keys *)

Section dok_facts.
Context {K V : Type} `{Countable K}.

(** Updating a dictionary with a list of bindings that gives a key one
    value only. *)
Lemma lookup_foldl_insert (l : list (K * V)) (d : gmap K V) k v :
  (∀ v', (k, v') ∈ l → v' = v) →
  d !! k = Some v ∨ (k, v) ∈ l →
  foldl (λ d kv, <[kv.1 := kv.2]> d) d l !! k = Some v.
Proof.
  revert d. induction l as [|[k0 v0] l IH]; intros d Hfun Hin; simpl.
  - destruct Hin as [?|Hin]; [done|by apply elem_of_nil in Hin].
  - apply IH; [intros v' Hv'; apply Hfun; by right|].
    destruct (decide (k0 = k)) as [->|Hne].
    + left. rewrite lookup_insert_eq. f_equal. apply Hfun. by left.
    + rewrite lookup_insert_ne by done.
      destruct Hin as [?|Hin]; [by left|].
      apply elem_of_cons in Hin as [?|?]; [congruence|by right].
Qed.

Lemma lookup_foldl_insert_None (l : list (K * V)) (d : gmap K V) k :
  (∀ v, (k, v) ∉ l) →
  foldl (λ d kv, <[kv.1 := kv.2]> d) d l !! k = d !! k.
Proof.
  revert d. induction l as [|[k0 v0] l IH]; intros d Hno; simpl; [done|].
  rewrite IH by (intros v Hv; apply (Hno v); by right).
  apply lookup_insert_ne. intros ->. apply (Hno v0). by left.
Qed.
End dok_facts.

(** The COO entries of a dense array: the non-zero entries, each under its
    position. *)
Lemma elem_of_coo_entries `{Num A} (a : ndarray A) i j (x : A) :
  ((i, j), x) ∈ coo_entries a ↔ item a i j = Some x ∧ is_zero x = false.
Proof.
  unfold coo_entries, item.
  rewrite list_elem_of_In, List.in_concat. split.
  - intros (l & Hl & Hx). apply list_elem_of_In in Hl, Hx.
    apply elem_of_lookup_imap in Hl as (i' & r & -> & Hr).
    apply list_elem_of_fmap in Hx as ([j' x'] & Heq & Hp). simpl in Heq.
    simplify_eq. apply elem_of_row_nonzero in Hp as [Hj Hz]. simpl in *.
    rewrite Hr. simpl. done.
  - intros [Hit Hz]. destruct (rows a !! i) as [r|] eqn:Hr; [|done].
    simpl in Hit.
    exists ((λ p : nat * A, ((i, p.1), p.2)) <$> row_nonzero r). split.
    + apply list_elem_of_In.
      apply (elem_of_lookup_imap_2
               (λ i r, (λ p : nat * A, ((i, p.1), p.2)) <$> row_nonzero r)
               (rows a) r i Hr).
    + apply list_elem_of_In. apply list_elem_of_fmap. exists (j, x).
      split; [done|]. by apply elem_of_row_nonzero.
Qed.

(** X15: the dictionary of [sparse.dok_matrix(a)] holds exactly the non-zero
    entries of [a], each under its position [(i, j)]; positions of zeros and
    positions outside the array are absent. *)
Theorem dok_matrix_lookup (a : ndarray Z) (i j : nat) :
  dok_shape (dok_matrix a) = shape a ∧
  dok_items (dok_matrix a) !! (i, j) =
    (x ← item a i j; if is_zero x then None else Some x).
Proof.
  split; [done|]. unfold dok_matrix. cbn [dok_items].
  destruct (item a i j) as [x|] eqn:Hit; simpl.
  - destruct (bool_decide (x = 0%Z)) eqn:Hz.
    + rewrite lookup_foldl_insert_None; [done|].
      intros v Hv. apply elem_of_coo_entries in Hv as [Hv Hnz].
      rewrite Hit in Hv. simplify_eq. simpl in Hnz. congruence.
    + apply lookup_foldl_insert.
      * intros v' Hv'. apply elem_of_coo_entries in Hv' as [Hv' _]. congruence.
      * right. by apply elem_of_coo_entries.
  - rewrite lookup_foldl_insert_None; [done|].
    intros v Hv. apply elem_of_coo_entries in Hv as [Hv _]. congruence.
Qed.
